(** * Campus Lost-And-Found: the post filter, the snapshot listener and the
      mutation handlers of [src/App.tsx], embedded and verified.

    The development follows the source file top-down:
    - JavaScript strings and the string built-ins the filter calls
      ([toLowerCase], [includes]);
    - the data model of [types.ts] ([Post], [PostType]) and of the create
      form ([NewPostForm]);
    - [filteredPosts] (App.tsx 194-201);
    - Firestore documents as dynamic objects, the snapshot listener
      (App.tsx 91-103);
    - the handlers [handleCreatePost], [handleResolvePost],
      [handleDeletePost] (App.tsx 130-190) and [uploadImageToImgBB], run
      against an explicit world (session, form, remote collection, log of
      observable effects). *)

From Stdlib Require Import NArith ZArith QArith Ascii String.
From stdpp Require Import gmap strings list fin_maps.

Local Open Scope N_scope.

(** ** JavaScript strings *)

(** A JavaScript string is a finite sequence of UTF-16 code units. *)
Definition jsstring := list N.

(** A literal of the source, written in the code units of its characters
    (all literals of the source are Basic Latin). *)
Definition js (s : string) : jsstring :=
  (fun c => N_of_ascii c) <$> list_ascii_of_string s.

(** A string of Basic Latin (ASCII) code units only. *)
Definition basicLatin (q : jsstring) : Prop := Forall (fun c => c < 0x80) q.

(** [s] occurs in [t] as it is written. *)
Definition occursIn (s t : jsstring) : Prop := ∃ pre post, t = pre ++ s ++ post.

(** Letter case in Basic Latin: A..Z and a..z, 0x20 apart. *)
Module BasicLatin.
Definition lower (c : N) : N :=
  if (0x41 <=? c) && (c <=? 0x5A) then c + 0x20 else c.

Definition upper (c : N) : N :=
  if (0x61 <=? c) && (c <=? 0x7A) then c - 0x20 else c.
End BasicLatin.

(** *** The engine's case mappings

    [String.prototype.toLowerCase] and [toUpperCase] belong to the
    JavaScript engine: they apply Unicode's case mappings, whose tables
    and context rules are not part of this repository.  The filter is
    therefore defined and verified for every engine.  What is taken for
    granted of an engine is what it does to Basic Latin text, where the
    mappings are letter by letter. *)
Class Engine := {
  toLowerCase : jsstring -> jsstring;
  toUpperCase : jsstring -> jsstring;
  toLowerCase_basicLatin s :
    basicLatin s -> toLowerCase s = BasicLatin.lower <$> s;
  toUpperCase_basicLatin s :
    basicLatin s -> toUpperCase s = BasicLatin.upper <$> s
}.

(** *** An engine for concrete runs

    The mappings of Unicode on the code units of Basic Latin, Latin-1
    Supplement (U+0080..U+00FF), the Greek alphabet (U+0391..U+03A9,
    U+03B1..U+03C9) and Cyrillic (U+0400..U+045F), with U+0178, the image
    of U+00FF.  It stands for the engine on strings of these code units
    only; any other code unit it leaves as it is. *)
Module CodeUnit.
Definition between (lo hi c : N) : bool := (lo <=? c) && (c <=? hi).

(** The lower-case mapping of one code unit, the capital sigma (U+03A3)
    apart, whose image depends on its context.
    - A..Z            -> a..z
    - U+00C0..U+00DE  -> U+00E0..U+00FE, except U+00D7 (multiplication sign)
    - U+0178          -> U+00FF
    - U+0391..U+03A9  -> U+03B1..U+03C9, except U+03A2 (unassigned)
    - U+0400..U+040F  -> U+0450..U+045F
    - U+0410..U+042F  -> U+0430..U+044F *)
Definition lower (c : N) : N :=
  if between 0x41 0x5A c then c + 0x20
  else if between 0xC0 0xDE c && negb (c =? 0xD7) then c + 0x20
  else if c =? 0x178 then 0xFF
  else if between 0x391 0x3A9 c && negb (c =? 0x3A2) then c + 0x20
  else if between 0x400 0x40F c then c + 0x50
  else if between 0x410 0x42F c then c + 0x20
  else c.

(** The upper-case mapping of one code unit.
    - a..z            -> A..Z
    - U+00B5 (micro)  -> U+039C
    - U+00DF (sharp s)-> "SS" (two code units)
    - U+00E0..U+00FE  -> U+00C0..U+00DE, except U+00F7 (division sign)
    - U+00FF          -> U+0178
    - U+03C2 (final sigma) -> U+03A3
    - U+03B1..U+03C9  -> U+0391..U+03A9
    - U+0430..U+044F  -> U+0410..U+042F
    - U+0450..U+045F  -> U+0400..U+040F *)
Definition upper (c : N) : list N :=
  if between 0x61 0x7A c then [c - 0x20]
  else if c =? 0xB5 then [0x39C]
  else if c =? 0xDF then [0x53; 0x53]
  else if between 0xE0 0xFE c && negb (c =? 0xF7) then [c - 0x20]
  else if c =? 0xFF then [0x178]
  else if c =? 0x3C2 then [0x3A3]
  else if between 0x3B1 0x3C9 c then [c - 0x20]
  else if between 0x430 0x44F c then [c - 0x20]
  else if between 0x450 0x45F c then [c - 0x50]
  else [c].

(** The code units with letter case (Unicode's [Cased]). *)
Definition cased (c : N) : bool :=
  between 0x41 0x5A c || between 0x61 0x7A c
  || (c =? 0xAA) || (c =? 0xB5) || (c =? 0xBA)
  || (between 0xC0 0xFF c && negb (c =? 0xD7) && negb (c =? 0xF7))
  || (c =? 0x178)
  || (between 0x391 0x3A9 c && negb (c =? 0x3A2))
  || between 0x3B1 0x3C9 c
  || between 0x400 0x45F c.

(** The code units a case context looks through (Unicode's
    [Case_Ignorable]): apostrophe, full stop, colon, circumflex, grave,
    diaeresis, soft hyphen, macron, acute, middle dot, cedilla, and the
    combining marks U+0300..U+036F. *)
Definition caseIgnorable (c : N) : bool :=
  (c =? 0x27) || (c =? 0x2E) || (c =? 0x3A) || (c =? 0x5E) || (c =? 0x60)
  || (c =? 0xA8) || (c =? 0xAD) || (c =? 0xAF) || (c =? 0xB4) || (c =? 0xB7)
  || (c =? 0xB8) || between 0x300 0x36F c.
End CodeUnit.

Module Table.
(** A cased letter follows, case-ignorable code units looked through. *)
Fixpoint casedFollows (s : jsstring) : bool :=
  match s with
  | [] => false
  | c :: s' => if CodeUnit.caseIgnorable c then casedFollows s' else CodeUnit.cased c
  end.

(** Lower-casing from left to right; [before] tells whether a cased
    letter precedes, case-ignorable code units looked through.  A capital
    sigma becomes the final sigma (U+03C2) when a cased letter precedes
    it and none follows, and the small sigma (U+03C3) otherwise. *)
Fixpoint lowerFrom (before : bool) (s : jsstring) : jsstring :=
  match s with
  | [] => []
  | c :: s' =>
      (if c =? 0x3A3
       then if before && negb (casedFollows s') then 0x3C2 else 0x3C3
       else CodeUnit.lower c)
      :: lowerFrom (if CodeUnit.caseIgnorable c then before else CodeUnit.cased c) s'
  end.

Definition toLowerCase (s : jsstring) : jsstring := lowerFrom false s.

Definition toUpperCase (s : jsstring) : jsstring := s ≫= CodeUnit.upper.
End Table.

#[global] Instance tableEngine : Engine.
Proof.
  refine {| toLowerCase := Table.toLowerCase; toUpperCase := Table.toUpperCase |}.
  - intros s Hs. unfold Table.toLowerCase. generalize false.
    induction Hs as [|c s Hc _ IH]; intros before; simpl; [done|].
    rewrite IH. f_equal.
    unfold CodeUnit.lower, CodeUnit.between, BasicLatin.lower.
    repeat (match goal with
            | |- context [N.leb ?a ?b] => destruct (N.leb_spec a b)
            | |- context [N.eqb ?a ?b] => destruct (N.eqb_spec a b)
            end; simpl in *; try lia); reflexivity.
  - intros s Hs. unfold Table.toUpperCase.
    induction Hs as [|c s Hc _ IH]; [done|].
    rewrite bind_cons, fmap_cons, IH.
    replace (CodeUnit.upper c) with [BasicLatin.upper c]; [done|].
    unfold CodeUnit.upper, CodeUnit.between, BasicLatin.upper.
    repeat (match goal with
            | |- context [N.leb ?a ?b] => destruct (N.leb_spec a b)
            | |- context [N.eqb ?a ?b] => destruct (N.eqb_spec a b)
            end; simpl in *; try lia); reflexivity.
Defined.

(** [s.startsWith(t)]: the code units of [t] are the first ones of [s]. *)
Fixpoint startsWith (s t : jsstring) {struct t} : bool :=
  match t, s with
  | [], _ => true
  | _ :: _, [] => false
  | c :: t', d :: s' => (c =? d) && startsWith s' t'
  end.

(** [s.includes(t)]: [t] occurs in [s] at some index. *)
Fixpoint includes (s t : jsstring) : bool :=
  startsWith s t ||
  match s with
  | [] => false
  | _ :: s' => includes s' t
  end.

(** ** Data model ([types.ts]) *)

Inductive PostType := LOST | FOUND.

Inductive PostStatus := OPEN | RESOLVED.

(** The state variable [filterType : 'ALL' | PostType]. *)
Inductive FilterType := ALL | Only (t : PostType).

Definition PostType_eqb (a b : PostType) : bool :=
  match a, b with
  | LOST, LOST | FOUND, FOUND => true
  | _, _ => false
  end.

(** JavaScript numbers, with exact arithmetic on the finite ones. *)
Inductive number := Num (q : Q) | NaN.

Module Post.
Record t := mk {
  id : jsstring;
  type : PostType;
  title : jsstring;
  description : jsstring;
  location : jsstring;
  date : jsstring;
  category : jsstring;
  imageUrl : option jsstring;
  contactEmail : jsstring;
  contactPhone : option jsstring;
  createdBy : jsstring;
  creatorName : jsstring;
  creatorPhoto : option jsstring;
  createdAt : number;
  status : PostStatus
}.
End Post.

(** ** The post filter (App.tsx 194-201) *)

Definition matchesType (filterType : FilterType) (post : Post.t) : bool :=
  match filterType with
  | ALL => true
  | Only t => PostType_eqb (Post.type post) t
  end.

(** [Array.prototype.filter]: the elements the callback accepts, in the
    order of the array. *)
Fixpoint Array_filter {A} (f : A -> bool) (a : list A) : list A :=
  match a with
  | [] => []
  | x :: a' => if f x then x :: Array_filter f a' else Array_filter f a'
  end.

(** The fields the query is looked up in. *)
Definition searchedFields (p : Post.t) : list jsstring :=
  [Post.title p; Post.description p; Post.location p; Post.category p].

Section Filter.
Context {engine : Engine}.

Definition matchesSearch (searchTerm : jsstring) (post : Post.t) : bool :=
  includes (toLowerCase (Post.title post)) (toLowerCase searchTerm)
  || includes (toLowerCase (Post.description post)) (toLowerCase searchTerm)
  || includes (toLowerCase (Post.location post)) (toLowerCase searchTerm)
  || includes (toLowerCase (Post.category post)) (toLowerCase searchTerm).

Definition filteredPosts (posts : list Post.t) (searchTerm : jsstring)
    (filterType : FilterType) : list Post.t :=
  Array_filter
    (fun post => matchesSearch searchTerm post && matchesType filterType post)
    posts.

(** *** What the filter computes, in words *)

(** The lower-case form of [q] occurs in the lower-case form of [s]. *)
Definition lowerOccursIn (q s : jsstring) : Prop :=
  occursIn (toLowerCase q) (toLowerCase s).

(** A post the filter keeps. *)
Definition wanted (q : jsstring) (t : FilterType) (p : Post.t) : Prop :=
  (t = ALL ∨ t = Only (Post.type p))
  ∧ ∃ s, s ∈ searchedFields p ∧ lowerOccursIn q s.
End Filter.

(** *** What the specification says of the filter, in its own words *)

(** [u] and [q] are the same text up to the letter case of Basic Latin. *)
Definition sameIgnoringCase (u q : jsstring) : Prop :=
  BasicLatin.lower <$> u = BasicLatin.lower <$> q.

(** [q] is, case-insensitively, a substring of [s]: a stretch of [s] is
    [q] up to letter case. *)
Definition substringIgnoringCase (q s : jsstring) : Prop :=
  ∃ pre u post, s = pre ++ u ++ post ∧ sameIgnoringCase u q.

(** [l'] is exactly the elements of [l] that satisfy [P], in the order of
    [l] and as often as they occur there. *)
Inductive Selects {A} (P : A -> Prop) : list A -> list A -> Prop :=
| Selects_nil : Selects P [] []
| Selects_keep x l l' : P x -> Selects P l l' -> Selects P (x :: l) (x :: l')
| Selects_drop x l l' : ¬ P x -> Selects P l l' -> Selects P (x :: l) l'.

(** The mirror of the specification's scenario. *)
Definition scenario_post (id : string) (ty : PostType) (title : string)
    (createdAt : Z) : Post.t :=
  {| Post.id := js id; Post.type := ty; Post.title := js title;
     Post.description := []; Post.location := []; Post.date := [];
     Post.category := []; Post.imageUrl := None; Post.contactEmail := [];
     Post.contactPhone := None; Post.createdBy := [];
     Post.creatorName := []; Post.creatorPhoto := None;
     Post.createdAt := Num (inject_Z createdAt); Post.status := OPEN |}.

Definition post_a : Post.t := scenario_post "a" LOST "Blue Wallet" 100.
Definition post_b : Post.t := scenario_post "b" FOUND "Red Keys" 200.

(** ** Firestore documents and dynamic values *)

(** A Firestore [Timestamp]. *)
Record Timestamp := { seconds : Z; nanoseconds : Z }.

(** [Timestamp.prototype.toMillis]: [seconds * 1000 + nanoseconds / 1e6]. *)
Definition toMillis (ts : Timestamp) : number :=
  Num (inject_Z (seconds ts) * 1000 + inject_Z (nanoseconds ts) / 1000000)%Q.

(** The values a field of a document, or of an object built from one, can
    hold.  [undefined] is the absence of a value and is written [None] in
    [option Value]. *)
Inductive Value :=
| VNull
| VBool (b : bool)
| VNumber (n : number)
| VString (s : jsstring)
| VTimestamp (ts : Timestamp)
| VServerTimestamp            (* the sentinel returned by [serverTimestamp()] *)
| VOpaque.                    (* arrays, maps, references, ...: objects with no [toMillis] *)

(** A JavaScript object used as a record of fields ([DocumentData]). *)
Abbreviation Obj := (gmap string Value).

Definition serverTimestamp : Value := VServerTimestamp.

(** Truthiness, as [&&], [||] and [!] see it. *)
Definition truthy_string (s : jsstring) : bool :=
  match s with [] => false | _ :: _ => true end.

Definition truthy_number (n : number) : bool :=
  match n with Num q => negb (Qeq_bool q 0) | NaN => false end.

Definition truthy (v : option Value) : bool :=
  match v with
  | None | Some VNull => false
  | Some (VBool b) => b
  | Some (VNumber n) => truthy_number n
  | Some (VString s) => truthy_string s
  | Some (VTimestamp _) | Some VServerTimestamp | Some VOpaque => true
  end.

(** [a || b] on a string that may be [null]. *)
Definition or_string (a : option jsstring) (b : jsstring) : jsstring :=
  match a with
  | Some (c :: s) => c :: s
  | Some [] | None => b
  end.

(** [a || b] on dynamic values. *)
Definition or_value (a : option Value) (b : Value) : Value :=
  match a with
  | Some v => if truthy a then v else b
  | None => b
  end.

(** The method [v.toMillis] of a value that is not nullish: only
    timestamps have one.  [typeof v.toMillis === 'function'] is
    [is_Some (toMillis_method v)], and calling the method gives the
    number. *)
Definition toMillis_method (v : option Value) : option number :=
  match v with
  | Some (VTimestamp ts) => Some (toMillis ts)
  | _ => None
  end.

(** ** The snapshot listener (App.tsx 91-103) *)

Record QueryDocumentSnapshot := { doc_id : jsstring; doc_data : Obj }.

(** [data.createdAt && typeof data.createdAt.toMillis === 'function'
      ? data.createdAt.toMillis() : (data.createdAt || 0)] *)
Definition normalizedCreatedAt (data : Obj) : Value :=
  let createdAt := data !! "createdAt" in
  match (if truthy createdAt then toMillis_method createdAt else None) with
  | Some millis => VNumber millis
  | None => or_value createdAt (VNumber (Num 0))
  end.

(** [{ id: doc.id, ...data, createdAt: ... }] *)
Definition fetchedPost (doc : QueryDocumentSnapshot) : Obj :=
  let data := doc_data doc in
  <["createdAt" := normalizedCreatedAt data]>
    (data ∪ {["id" := VString (doc_id doc)]}).

Definition fetchedPosts (docs : list QueryDocumentSnapshot) : list Obj :=
  fetchedPost <$> docs.

(** ** Session, form and application state *)

Module User.
Record t := mk {
  uid : jsstring;
  displayName : option jsstring;
  email : option jsstring;
  photoURL : option jsstring
}.
End User.

(** A file picked in the form; only its identity matters here. *)
Record File := { file_name : jsstring }.

Module NewPostForm.
Record t := mk {
  type : PostType;
  title : jsstring;
  description : jsstring;
  location : jsstring;
  date : jsstring;
  category : jsstring;
  contactEmail : jsstring;
  contactPhone : jsstring;
  imageFile : option File
}.
End NewPostForm.

Definition CATEGORIES : list jsstring :=
  [js "Electronics"; js "ID Cards / Wallets"; js "Keys"; js "Books / Notes";
   js "Clothing"; js "Accessories"; js "Others"].

(** [INITIAL_FORM_STATE]; [today] is
    [new Date().toISOString().split('T')[0]] at load time. *)
Definition INITIAL_FORM_STATE (today : jsstring) : NewPostForm.t :=
  {| NewPostForm.type := LOST;
     NewPostForm.title := [];
     NewPostForm.description := [];
     NewPostForm.location := [];
     NewPostForm.date := today;
     NewPostForm.category := default [] (head CATEGORIES);
     NewPostForm.contactEmail := [];
     NewPostForm.contactPhone := [];
     NewPostForm.imageFile := None |}.

(** The component state of [App]: the [useState] cells the listener and
    the handlers read or write.  [posts] is the mirror; it holds the
    objects the listener builds, which the source casts to [Post[]]
    unchecked.  The cells [searchTerm] and [filterType] are the arguments
    of [filteredPosts]. *)
Record AppState := {
  user : option User.t;
  posts : list Obj;
  loading : bool;
  isModalOpen : bool;
  formState : NewPostForm.t;
  isSubmitting : bool
}.

(** [setPosts(fetchedPosts); setLoading(false)] *)
Definition onSnapshot_callback (docs : list QueryDocumentSnapshot)
    (st : AppState) : AppState :=
  {| user := user st; posts := fetchedPosts docs; loading := false;
     isModalOpen := isModalOpen st; formState := formState st;
     isSubmitting := isSubmitting st |}.

(** ** The world the handlers run in *)

(** What a rejected promise or a [throw] carries. *)
Inductive JSError :=
| Error (message : jsstring)          (* [new Error(message)] *)
| TypeError (message : jsstring)      (* [fetch] rejected: network failure *)
| SyntaxError (message : jsstring)    (* [response.json()] rejected *)
| FirestoreError (code : string).     (* a write rejected by the store *)

(** The body the image host answers with, as far as the code reads it:
    [data.success], [data.data.url], [data.error?.message]. *)
Inductive ImgbbJson :=
| ImgbbSuccess (url : jsstring)
| ImgbbFailure (error_message : option jsstring).

Inductive FetchOutcome :=
| FetchRejected (e : JSError)
| JsonRejected (e : JSError)
| Json (data : ImgbbJson).

(** The answers of the collaborators during one handler run: the user at
    the [confirm] dialog, the image host, the client clock, and the
    document store (the id [addDoc] draws, the server clock, and whether
    the write is refused for a reason of the store's own: network,
    permission). *)
Record Env := {
  confirm_answer : bool;
  fetch_answer : File -> FetchOutcome;
  Date_now : number;
  today : jsstring;
  auto_id : jsstring;
  server_time : Timestamp;
  write_fault : option JSError
}.

(** The client state and the remote ["posts"] collection. *)
Record World := {
  client : AppState;
  remote : gmap jsstring Obj
}.

(** What a run does that an observer can see, in order. *)
Inductive Effect :=
| PreventDefault
| SetIsSubmitting (b : bool)
| SetIsModalOpen (b : bool)
| SetFormState (f : NewPostForm.t)
| Fetch (file : File)                                  (* POST to the image host *)
| AddDoc (collection : string) (data : Obj)
| UpdateDoc (collection : string) (id : jsstring) (data : Obj)
| DeleteDoc (collection : string) (id : jsstring)
| Confirm (message : string)
| Alert (message : string)
| ConsoleError (label : string) (e : JSError).

(** A remote call: anything that leaves the client. *)
Definition isRemoteCall (e : Effect) : bool :=
  match e with
  | Fetch _ | AddDoc _ _ | UpdateDoc _ _ _ | DeleteDoc _ _ => true
  | _ => false
  end.

(** A write to the document store. *)
Definition isWrite (e : Effect) : bool :=
  match e with
  | AddDoc _ _ | UpdateDoc _ _ _ | DeleteDoc _ _ => true
  | _ => false
  end.

(** A failure made visible: a logged error or an alert. *)
Definition isFailureReport (e : Effect) : bool :=
  match e with
  | Alert _ | ConsoleError _ _ => true
  | _ => false
  end.

(** *** The handler monad: state, exceptions and a log of effects *)

Definition M (A : Type) : Type := World -> (JSError + A) * World * list Effect.

Definition ret {A} (a : A) : M A := fun w => (inr a, w, []).

Definition throw {A} (e : JSError) : M A := fun w => (inl e, w, []).

Definition bind {A B} (m : M A) (k : A -> M B) : M B := fun w =>
  match m w with
  | (inl e, w1, l1) => (inl e, w1, l1)
  | (inr a, w1, l1) => let '(r, w2, l2) := k a w1 in (r, w2, l1 ++ l2)
  end.

(** [try { m } catch (e) { h e }] *)
Definition try_catch {A} (m : M A) (h : JSError -> M A) : M A := fun w =>
  match m w with
  | (inl e, w1, l1) => let '(r, w2, l2) := h e w1 in (r, w2, l1 ++ l2)
  | (inr a, w1, l1) => (inr a, w1, l1)
  end.

(** [try { m } finally { f }] *)
Definition try_finally {A} (m : M A) (f : M unit) : M A := fun w =>
  let '(r, w1, l1) := m w in
  match f w1 with
  | (inl e, w2, l2) => (inl e, w2, l1 ++ l2)
  | (inr _, w2, l2) => (r, w2, l1 ++ l2)
  end.

#[global] Instance M_ret : MRet M := @ret.
#[global] Instance M_bind : MBind M := fun A B k m => bind m k.

Definition emit (e : Effect) : M unit := fun w => (inr tt, w, [e]).

Definition modify_app (f : AppState -> AppState) : M unit := fun w =>
  (inr tt, {| client := f (client w); remote := remote w |}, []).

Definition modify_remote (f : gmap jsstring Obj -> gmap jsstring Obj) : M unit :=
  fun w => (inr tt, {| client := client w; remote := f (remote w) |}, []).

Definition get_remote : M (gmap jsstring Obj) := fun w => (inr (remote w), w, []).

(** *** Browser and SDK calls *)

Section Handlers.
Variable env : Env.

Definition preventDefault : M unit := emit PreventDefault.

Definition confirm (message : string) : M bool :=
  emit (Confirm message) ;; mret (confirm_answer env).

Definition alert (message : string) : M unit := emit (Alert message).

Definition console_error (label : string) (e : JSError) : M unit :=
  emit (ConsoleError label e).

Definition setIsSubmitting (b : bool) : M unit :=
  emit (SetIsSubmitting b) ;;
  modify_app (fun st =>
    {| user := user st; posts := posts st; loading := loading st;
       isModalOpen := isModalOpen st; formState := formState st;
       isSubmitting := b |}).

Definition setIsModalOpen (b : bool) : M unit :=
  emit (SetIsModalOpen b) ;;
  modify_app (fun st =>
    {| user := user st; posts := posts st; loading := loading st;
       isModalOpen := b; formState := formState st;
       isSubmitting := isSubmitting st |}).

Definition setFormState (f : NewPostForm.t) : M unit :=
  emit (SetFormState f) ;;
  modify_app (fun st =>
    {| user := user st; posts := posts st; loading := loading st;
       isModalOpen := isModalOpen st; formState := f;
       isSubmitting := isSubmitting st |}).

(** How the store commits the fields of a write: the server-timestamp
    sentinel becomes the server's time. *)
Definition committed (data : Obj) : Obj :=
  (fun v => match v with
            | VServerTimestamp => VTimestamp (server_time env)
            | _ => v
            end) <$> data.

(** [addDoc(collection(db, c), data)]: a document under a new id; the
    write carries the precondition that the id is free. *)
Definition addDoc (c : string) (data : Obj) : M jsstring :=
  emit (AddDoc c data) ;;
  match write_fault env with
  | Some e => throw e
  | None =>
      docs ← get_remote;
      match docs !! auto_id env with
      | Some _ => throw (FirestoreError "already-exists")
      | None =>
          modify_remote (insert (auto_id env) (committed data)) ;;
          mret (auto_id env)
      end
  end.

(** [updateDoc(doc(db, c, id), data)]: merges the fields into an
    existing document, and fails if there is none. *)
Definition updateDoc (c : string) (id : jsstring) (data : Obj) : M unit :=
  emit (UpdateDoc c id data) ;;
  match write_fault env with
  | Some e => throw e
  | None =>
      docs ← get_remote;
      match docs !! id with
      | None => throw (FirestoreError "not-found")
      | Some old => modify_remote (insert id (committed data ∪ old))
      end
  end.

(** [deleteDoc(doc(db, c, id))]: succeeds whether or not the document
    exists. *)
Definition deleteDoc (c : string) (id : jsstring) : M unit :=
  emit (DeleteDoc c id) ;;
  match write_fault env with
  | Some e => throw e
  | None => modify_remote (delete id)
  end.

(** [fetch(...)] followed by [response.json()]. *)
Definition fetch_json (file : File) : M ImgbbJson :=
  emit (Fetch file) ;;
  match fetch_answer env file with
  | FetchRejected e | JsonRejected e => throw e
  | Json data => mret data
  end.

(** ** [uploadImageToImgBB] (services/imgbb) *)
Definition uploadImageToImgBB (file : File) : M jsstring :=
  try_catch
    (data ← fetch_json file;
     match data with
     | ImgbbSuccess url => mret url
     | ImgbbFailure message =>
         throw (Error (or_string message (js "Image upload failed")))
     end)
    (fun error => console_error "Error uploading image:" error ;; throw error).

(** ** The handlers (App.tsx 130-190) *)

Definition PostType_value (t : PostType) : Value :=
  VString (js match t with LOST => "LOST" | FOUND => "FOUND" end).

(** The object literal [newPost] (App.tsx 141-156). *)
Definition newPost (form : NewPostForm.t) (u : User.t) (imageUrl : jsstring)
    : Obj :=
  list_to_map
    [("type", PostType_value (NewPostForm.type form));
     ("title", VString (NewPostForm.title form));
     ("description", VString (NewPostForm.description form));
     ("location", VString (NewPostForm.location form));
     ("date", VString (NewPostForm.date form));
     ("category", VString (NewPostForm.category form));
     ("contactEmail", VString (NewPostForm.contactEmail form));
     ("contactPhone", VString (NewPostForm.contactPhone form));
     ("imageUrl", VString imageUrl);
     ("createdBy", VString (User.uid u));
     ("creatorName", VString (or_string (User.displayName u) (js "Anonymous")));
     ("creatorPhoto", VString (or_string (User.photoURL u) []));
     ("createdAt", VNumber (Date_now env));
     ("status", VString (js "OPEN"))].

(** [st] is the state the handler closes over: the [user] and
    [formState] of the render that installed it. *)
Definition handleCreatePost (st : AppState) : M unit :=
  preventDefault ;;
  match user st with
  | None => mret tt
  | Some u =>
      setIsSubmitting true ;;
      try_finally
        (try_catch
           (imageUrl ← match NewPostForm.imageFile (formState st) with
                       | Some file => uploadImageToImgBB file
                       | None => mret []
                       end;
            addDoc "posts"
              (<["createdAt" := serverTimestamp]>
                 (newPost (formState st) u imageUrl)) ;;
            setIsModalOpen false ;;
            setFormState
              {| NewPostForm.type := NewPostForm.type (INITIAL_FORM_STATE (today env));
                 NewPostForm.title := NewPostForm.title (INITIAL_FORM_STATE (today env));
                 NewPostForm.description := NewPostForm.description (INITIAL_FORM_STATE (today env));
                 NewPostForm.location := NewPostForm.location (INITIAL_FORM_STATE (today env));
                 NewPostForm.date := NewPostForm.date (INITIAL_FORM_STATE (today env));
                 NewPostForm.category := NewPostForm.category (INITIAL_FORM_STATE (today env));
                 NewPostForm.contactEmail := or_string (User.email u) [];
                 NewPostForm.contactPhone := NewPostForm.contactPhone (INITIAL_FORM_STATE (today env));
                 NewPostForm.imageFile := NewPostForm.imageFile (INITIAL_FORM_STATE (today env)) |})
           (fun error =>
              console_error "Error creating post:" error ;;
              alert "Failed to create post. Please try again."))
        (setIsSubmitting false)
  end.

Definition handleResolvePost (postId : jsstring) : M unit :=
  ok ← confirm "Are you sure you want to mark this item as resolved/found?";
  if negb ok then mret tt
  else
    try_catch
      (updateDoc "posts" postId {["status" := VString (js "RESOLVED")]})
      (fun error => console_error "Error resolving post:" error).

Definition handleDeletePost (postId : jsstring) : M unit :=
  ok ← confirm "Are you sure you want to delete this post? This cannot be undone.";
  if negb ok then mret tt
  else
    try_catch
      (deleteDoc "posts" postId)
      (fun error => console_error "Error deleting post:" error).

(** ** The create form (App.tsx 378-510) *)

(** A control of the form, with the two attributes that decide whether
    the browser lets the form be submitted. *)
Record Control := { required : bool; readOnly : bool; value : jsstring }.

(** The controls of the form in document order: the two selects (type,
    category), item name, description, location, date, the file input,
    the e-mail (required and read-only) and the phone. *)
Definition createForm (form : NewPostForm.t) : list Control :=
  [ {| required := false; readOnly := false;
       value := js match NewPostForm.type form with LOST => "LOST" | FOUND => "FOUND" end |};
    {| required := false; readOnly := false; value := NewPostForm.category form |};
    {| required := true; readOnly := false; value := NewPostForm.title form |};
    {| required := true; readOnly := false; value := NewPostForm.description form |};
    {| required := true; readOnly := false; value := NewPostForm.location form |};
    {| required := true; readOnly := false; value := NewPostForm.date form |};
    {| required := false; readOnly := false;
       value := from_option file_name [] (NewPostForm.imageFile form) |};
    {| required := true; readOnly := true; value := NewPostForm.contactEmail form |};
    {| required := false; readOnly := false; value := NewPostForm.contactPhone form |} ].

(** The browser's check of a control before submission: a required
    control with an empty value is invalid, unless the control is
    read-only, which bars it from constraint validation. *)
Definition valueMissing (c : Control) : bool :=
  required c && negb (readOnly c) && negb (truthy_string (value c)).

Definition checkValidity (controls : list Control) : bool :=
  forallb (fun c => negb (valueMissing c)) controls.

(** Pressing "Submit Post": the submit event, and with it
    [handleCreatePost], fires only if the form is valid. *)
Definition submitCreateForm (st : AppState) : M unit :=
  if checkValidity (createForm (formState st)) then handleCreatePost st
  else mret tt.

(** ** The three mutations as one transition system *)

Inductive Mutation :=
| Create (st : AppState)
| Resolve (postId : jsstring)
| Delete (postId : jsstring).

Definition perform (op : Mutation) : M unit :=
  match op with
  | Create st => handleCreatePost st
  | Resolve postId => handleResolvePost postId
  | Delete postId => handleDeletePost postId
  end.
End Handlers.

(** The world, and the effects, after a run. *)
Definition world_after {A} (m : M A) (w : World) : World := (m w).1.2.
Definition effects_of {A} (m : M A) (w : World) : list Effect := (m w).2.
Definition result_of {A} (m : M A) (w : World) : JSError + A := (m w).1.1.

(** A sequence of mutations, each with the answers of its collaborators. *)
Fixpoint exec (ops : list (Env * Mutation)) (w : World) : World :=
  match ops with
  | [] => w
  | (env, op) :: ops' => exec ops' (world_after (perform env op) w)
  end.

(** The [status] field of a stored document. *)
Definition statusOf (d : Obj) : option PostStatus :=
  match d !! "status" with
  | Some (VString s) =>
      if decide (s = js "OPEN") then Some OPEN
      else if decide (s = js "RESOLVED") then Some RESOLVED
      else None
  | _ => None
  end.



(** A post titled with the Greek word for "street" in capitals (omicron,
    delta, omicron, sigma), and the query made of the capital sigma. *)
Definition post_odos : Post.t :=
  {| Post.id := js "o"; Post.type := LOST;
     Post.title := [0x39F; 0x394; 0x39F; 0x3A3];
     Post.description := []; Post.location := []; Post.date := [];
     Post.category := js "Others"; Post.imageUrl := None;
     Post.contactEmail := []; Post.contactPhone := None;
     Post.createdBy := []; Post.creatorName := [];
     Post.creatorPhoto := None; Post.createdAt := Num 0;
     Post.status := OPEN |}.

Definition capital_sigma : jsstring := [0x3A3].

(** The error with which the image upload fails, if it does: what
    [uploadImageToImgBB] throws on the answer of the image host. *)
Definition uploadError (env : Env) (file : File) : option JSError :=
  match fetch_answer env file with
  | FetchRejected e | JsonRejected e => Some e
  | Json (ImgbbFailure message) =>
      Some (Error (or_string message (js "Image upload failed")))
  | Json (ImgbbSuccess _) => None
  end.

(** The update [handleResolvePost] writes. *)
Definition resolved_fields : Obj := {["status" := VString (js "RESOLVED")]}.

(** Every stored post carries a server timestamp in [createdAt]. *)
Definition createdAtStamped (docs : gmap jsstring Obj) : Prop :=
  ∀ id d, docs !! id = Some d -> ∃ ts, d !! "createdAt" = Some (VTimestamp ts).

(** ** Sample sessions, forms and worlds *)

Definition alice : User.t :=
  {| User.uid := js "u1"; User.displayName := Some (js "Alice");
     User.email := Some (js "alice@campus.edu"); User.photoURL := None |}.

(** A signed-in user whose provider gave neither name, e-mail nor photo. *)
Definition visitor : User.t :=
  {| User.uid := js "u2"; User.displayName := None;
     User.email := None; User.photoURL := None |}.

Definition photo : File := {| file_name := js "wallet.png" |}.

Definition form_wallet (email : jsstring) (image : option File) : NewPostForm.t :=
  {| NewPostForm.type := LOST; NewPostForm.title := js "Blue Wallet";
     NewPostForm.description := js "Leather, two cards inside";
     NewPostForm.location := js "Library 2nd Floor";
     NewPostForm.date := js "2024-05-01";
     NewPostForm.category := js "ID Cards / Wallets";
     NewPostForm.contactEmail := email; NewPostForm.contactPhone := [];
     NewPostForm.imageFile := image |}.

Definition form_untitled : NewPostForm.t :=
  {| NewPostForm.type := LOST; NewPostForm.title := [];
     NewPostForm.description := js "Leather, two cards inside";
     NewPostForm.location := js "Library 2nd Floor";
     NewPostForm.date := js "2024-05-01";
     NewPostForm.category := js "ID Cards / Wallets";
     NewPostForm.contactEmail := js "alice@campus.edu";
     NewPostForm.contactPhone := []; NewPostForm.imageFile := None |}.

Definition session (u : option User.t) (form : NewPostForm.t) : AppState :=
  {| user := u; posts := []; loading := false; isModalOpen := true;
     formState := form; isSubmitting := false |}.

(** Collaborators that all answer favourably, but for the given answer of
    the image host. *)
Definition env_with (answer : FetchOutcome) (clock : Z) : Env :=
  {| confirm_answer := true;
     fetch_answer := fun _ => answer;
     Date_now := Num (inject_Z clock);
     today := js "2024-05-01";
     auto_id := js "p2";
     server_time := {| seconds := 1714557600; nanoseconds := 123456000 |};
     write_fault := None |}.

Definition env_ok : Env :=
  env_with (Json (ImgbbSuccess (js "https://i.ibb.co/wallet.png"))) 1714557599000.

Definition env_host_down : Env :=
  env_with (FetchRejected (TypeError (js "Failed to fetch"))) 1714557599000.

(** A stored post with the given status. *)
Definition stored_post (status : string) : Obj :=
  {[ "title" := VString (js "Red Keys");
     "status" := VString (js status);
     "createdAt" := VTimestamp {| seconds := 1714000000; nanoseconds := 0 |} ]}.

Definition world_with (st : AppState) (status : string) : World :=
  {| client := st; remote := {[ js "p1" := stored_post status ]} |}.

(** Signed out, with one OPEN post stored. *)
Definition signed_out : AppState := session None (form_wallet [] None).
Definition world_signed_out : World := world_with signed_out "OPEN".

(** [visitor] signed in: the form's e-mail is [currentUser.email || ''],
    the empty string. *)
Definition visitor_session : AppState :=
  session (Some visitor) (form_wallet [] None).
Definition world_visitor : World := world_with visitor_session "OPEN".

(** [alice] signed in, the form filled but for the item name. *)
Definition untitled_session : AppState := session (Some alice) form_untitled.
Definition world_untitled : World := world_with untitled_session "OPEN".

(** [alice] signed in, the form filled, a photo attached. *)
Definition photo_session : AppState :=
  session (Some alice) (form_wallet (js "alice@campus.edu") (Some photo)).
Definition world_photo : World := world_with photo_session "OPEN".

(** The same collaborators with another reading of the client clock. *)
Definition with_clock (now : number) (env : Env) : Env :=
  {| confirm_answer := confirm_answer env; fetch_answer := fetch_answer env;
     Date_now := now; today := today env; auto_id := auto_id env;
     server_time := server_time env; write_fault := write_fault env |}.

(** The creator snapshot of a post created by [u] has its defaults and is
    never null. *)
Definition creatorDefaults (u : User.t) (d : Obj) : Prop :=
  (User.displayName u = None -> d !! "creatorName" = Some (VString (js "Anonymous")))
  ∧ (User.photoURL u = None -> d !! "creatorPhoto" = Some (VString []))
  ∧ (∃ s, d !! "creatorName" = Some (VString s))
  ∧ (∃ s, d !! "creatorPhoto" = Some (VString s)).

(** The status of the post [id] in a world, if it is stored there. *)
Definition statusAt (id : jsstring) (w : World) : option PostStatus :=
  remote w !! id ≫= statusOf.

(** The worlds a sequence of mutations goes through, the first one
    included. *)
Fixpoint trace (ops : list (Env * Mutation)) (w : World) : list World :=
  w :: match ops with
       | [] => []
       | (env, op) :: ops' => trace ops' (world_after (perform env op) w)
       end.

(** ** [PostCard] (components/PostCard) as [App] renders it (App.tsx 333-342) *)

(** [user?.uid === post.createdBy]; signed out, the left side is
    [undefined], which no string equals. *)
Definition isOwner (user : option User.t) (post : Post.t) : bool :=
  match user with
  | Some u => bool_decide (User.uid u = Post.createdBy post)
  | None => false
  end.

(** [post.status !== 'RESOLVED'] *)
Definition notResolved (post : Post.t) : bool :=
  match Post.status post with
  | RESOLVED => false
  | OPEN => true
  end.

(** The two owner buttons of a card.  (Its third button, "View Details",
    is always there and opens the details dialog.) *)
Inductive CardButton := MarkResolved | DeleteButton.

(** The buttons are rendered under [isOwner && post.status !== 'RESOLVED'];
    a click runs [onResolve && onResolve(post.id)], resp.
    [onDelete && onDelete(post.id)].  Clicking a button that is not
    rendered is no event at all. *)
Definition PostCard_click (post : Post.t) (isOwner : bool)
    (onResolve onDelete : option (jsstring -> M unit)) (b : CardButton) : M unit :=
  if isOwner && notResolved post then
    match b with
    | MarkResolved =>
        match onResolve with Some f => f (Post.id post) | None => mret tt end
    | DeleteButton =>
        match onDelete with Some f => f (Post.id post) | None => mret tt end
    end
  else mret tt.

(** [<PostCard post={post} isOwner={user?.uid === post.createdBy}
      onResolve={handleResolvePost} onDelete={handleDeletePost} ... />] *)
Definition App_card_click (env : Env) (st : AppState) (post : Post.t)
    (b : CardButton) : M unit :=
  PostCard_click post (isOwner (user st) post)
    (Some (handleResolvePost env)) (Some (handleDeletePost env)) b.

(** ** The session listener (App.tsx 68-88) *)

(** [setUser(currentUser)] and, signed in,
    [setFormState(prev => ({ ...prev, contactEmail: currentUser.email || '' }))]. *)
Definition onAuthStateChanged_state (currentUser : option User.t)
    (st : AppState) : AppState :=
  {| user := currentUser; posts := posts st; loading := loading st;
     isModalOpen := isModalOpen st;
     formState :=
       match currentUser with
       | Some u =>
           {| NewPostForm.type := NewPostForm.type (formState st);
              NewPostForm.title := NewPostForm.title (formState st);
              NewPostForm.description := NewPostForm.description (formState st);
              NewPostForm.location := NewPostForm.location (formState st);
              NewPostForm.date := NewPostForm.date (formState st);
              NewPostForm.category := NewPostForm.category (formState st);
              NewPostForm.contactEmail := or_string (User.email u) [];
              NewPostForm.contactPhone := NewPostForm.contactPhone (formState st);
              NewPostForm.imageFile := NewPostForm.imageFile (formState st) |}
       | None => formState st
       end;
     isSubmitting := isSubmitting st |}.

(** A [string | null] field as a document value. *)
Definition nullable (s : option jsstring) : Value :=
  match s with Some s => VString s | None => VNull end.

(** The profile written on sign-in (App.tsx 77-83). *)
Definition userProfile (u : User.t) : Obj :=
  list_to_map
    [("uid", VString (User.uid u));
     ("displayName", nullable (User.displayName u));
     ("email", nullable (User.email u));
     ("photoURL", nullable (User.photoURL u));
     ("lastLogin", serverTimestamp)].

(** [setDoc(doc(db, "users", id), data, { merge: true })] on the ["users"]
    collection: the fields are merged into the document, which is created
    if there is none. *)
Definition setDoc_merge (env : Env) (id : jsstring) (data : Obj)
    (users : gmap jsstring Obj) : JSError + gmap jsstring Obj :=
  match write_fault env with
  | Some e => inl e
  | None => inr (<[id := committed env data ∪ default ∅ (users !! id)]> users)
  end.

(** The whole callback: the new component state, the ["users"] collection
    after it, and the error it logs under "Error storing user data:", if
    any. *)
Definition onAuthStateChanged_callback (env : Env) (currentUser : option User.t)
    (st : AppState) (users : gmap jsstring Obj)
    : AppState * gmap jsstring Obj * option JSError :=
  match currentUser with
  | None => (onAuthStateChanged_state currentUser st, users, None)
  | Some u =>
      match setDoc_merge env (User.uid u) (userProfile u) users with
      | inr users' => (onAuthStateChanged_state currentUser st, users', None)
      | inl e => (onAuthStateChanged_state currentUser st, users, Some e)
      end
  end.

(** ** Editing the form (App.tsx 124-128, 386-495) *)

(** The [onChange] handlers of the form's controls:
    [setFormState({...formState, <field>: e.target.value})].  The e-mail
    input is read-only and has none. *)
Inductive FormChange :=
| ChangeType (v : PostType)
| ChangeCategory (v : jsstring)
| ChangeTitle (v : jsstring)
| ChangeDescription (v : jsstring)
| ChangeLocation (v : jsstring)
| ChangeDate (v : jsstring)
| ChangeContactPhone (v : jsstring).

Definition onChange (c : FormChange) (f : NewPostForm.t) : NewPostForm.t :=
  {| NewPostForm.type :=
       match c with ChangeType v => v | _ => NewPostForm.type f end;
     NewPostForm.title :=
       match c with ChangeTitle v => v | _ => NewPostForm.title f end;
     NewPostForm.description :=
       match c with ChangeDescription v => v | _ => NewPostForm.description f end;
     NewPostForm.location :=
       match c with ChangeLocation v => v | _ => NewPostForm.location f end;
     NewPostForm.date :=
       match c with ChangeDate v => v | _ => NewPostForm.date f end;
     NewPostForm.category :=
       match c with ChangeCategory v => v | _ => NewPostForm.category f end;
     NewPostForm.contactEmail := NewPostForm.contactEmail f;
     NewPostForm.contactPhone :=
       match c with ChangeContactPhone v => v | _ => NewPostForm.contactPhone f end;
     NewPostForm.imageFile := NewPostForm.imageFile f |}.

(** [handleFileChange]: [if (e.target.files && e.target.files[0])
    setFormState({ ...formState, imageFile: e.target.files[0] })]. *)
Definition handleFileChange (files : option (list File)) (f : NewPostForm.t)
    : NewPostForm.t :=
  match files with
  | Some (file :: _) =>
      {| NewPostForm.type := NewPostForm.type f;
         NewPostForm.title := NewPostForm.title f;
         NewPostForm.description := NewPostForm.description f;
         NewPostForm.location := NewPostForm.location f;
         NewPostForm.date := NewPostForm.date f;
         NewPostForm.category := NewPostForm.category f;
         NewPostForm.contactEmail := NewPostForm.contactEmail f;
         NewPostForm.contactPhone := NewPostForm.contactPhone f;
         NewPostForm.imageFile := Some file |}
  | Some [] | None => f
  end.

Definition with_formState (f : NewPostForm.t) (st : AppState) : AppState :=
  {| user := user st; posts := posts st; loading := loading st;
     isModalOpen := isModalOpen st; formState := f;
     isSubmitting := isSubmitting st |}.

(** ** The events of the component, one after another *)

Inductive UIEvent :=
| AuthStateChanged (currentUser : option User.t)
| Snapshot (docs : list QueryDocumentSnapshot)
| Change (c : FormChange)
| FileChange (files : option (list File))
| SubmitCreate (env : Env)
| CardClick (env : Env) (post : Post.t) (b : CardButton).

Definition with_client (st : AppState) (w : World) : World :=
  {| client := st; remote := remote w |}.

(** Each event runs to its end on the state the previous one left. *)
Definition ui_step (ev : UIEvent) (w : World) : World :=
  match ev with
  | AuthStateChanged currentUser =>
      with_client (onAuthStateChanged_state currentUser (client w)) w
  | Snapshot docs => with_client (onSnapshot_callback docs (client w)) w
  | Change c =>
      with_client (with_formState (onChange c (formState (client w))) (client w)) w
  | FileChange files =>
      with_client
        (with_formState (handleFileChange files (formState (client w))) (client w)) w
  | SubmitCreate env => world_after (submitCreateForm env (client w)) w
  | CardClick env post b => world_after (App_card_click env (client w) post b) w
  end.

Definition ui_run (evs : list UIEvent) (w : World) : World :=
  foldl (fun w ev => ui_step ev w) w evs.

(** The form's e-mail is the one of the signed-in user, or empty if they
    have none. *)
Definition emailInSync (st : AppState) : Prop :=
  ∀ u, user st = Some u ->
    NewPostForm.contactEmail (formState st) = or_string (User.email u) [].

(** ** Outcomes of a create, in terms of the collaborators' answers *)

(** The image URL the create works with: empty without a file, the
    host's URL after a successful upload, none if the upload fails. *)
Definition uploadedUrl (env : Env) (form : NewPostForm.t) : option jsstring :=
  match NewPostForm.imageFile form with
  | None => Some []
  | Some file =>
      match fetch_answer env file with
      | Json (ImgbbSuccess url) => Some url
      | _ => None
      end
  end.

(** The create goes through: the upload, if any, succeeds, the store
    accepts the write, and the drawn id is free. *)
Definition createGoesThrough (env : Env) (st : AppState) (w : World) : bool :=
  bool_decide (is_Some (uploadedUrl env (formState st)))
  && bool_decide (write_fault env = None)
  && bool_decide (remote w !! auto_id env = None).

Definition isAlert (e : Effect) : bool :=
  match e with Alert _ => true | _ => false end.

(** No stored post has a field named [id]. *)
Definition noIdField (docs : gmap jsstring Obj) : Prop :=
  ∀ id d, docs !! id = Some d -> d !! "id" = None.

(** A stored value that the listener lets through as it is: truthy, and
    neither a timestamp nor a number. *)
Definition passesThrough (v : Value) : bool :=
  match v with
  | VBool true | VServerTimestamp | VOpaque => true
  | VString s => truthy_string s
  | _ => false
  end.

(** Samples: a profile with a role, a store refusing writes, two posts of
    [alice], one OPEN and one RESOLVED. *)
Definition profile_with_role : Obj :=
  {[ "uid" := VString (js "u1"); "role" := VString (js "staff");
     "displayName" := VString (js "Al") ]}.

Definition env_refusing : Env :=
  {| confirm_answer := true;
     fetch_answer := fun _ => Json (ImgbbSuccess (js "https://i.ibb.co/wallet.png"));
     Date_now := Num 0; today := js "2024-05-01"; auto_id := js "p2";
     server_time := {| seconds := 1714557600; nanoseconds := 0 |};
     write_fault := Some (FirestoreError "permission-denied") |}.

Definition card_post (status : PostStatus) : Post.t :=
  {| Post.id := js "p1"; Post.type := FOUND; Post.title := js "Red Keys";
     Post.description := []; Post.location := []; Post.date := [];
     Post.category := js "Keys"; Post.imageUrl := None;
     Post.contactEmail := js "alice@campus.edu"; Post.contactPhone := None;
     Post.createdBy := js "u1"; Post.creatorName := js "Alice";
     Post.creatorPhoto := None; Post.createdAt := Num 0;
     Post.status := status |}.

(** The form a successful create leaves:
    [{ ...INITIAL_FORM_STATE, contactEmail: user.email || '' }]. *)
Definition resetForm (env : Env) (u : User.t) : NewPostForm.t :=
  {| NewPostForm.type := LOST; NewPostForm.title := [];
     NewPostForm.description := []; NewPostForm.location := [];
     NewPostForm.date := today env; NewPostForm.category := js "Electronics";
     NewPostForm.contactEmail := or_string (User.email u) [];
     NewPostForm.contactPhone := []; NewPostForm.imageFile := None |}.

(** The mutation is not a create. *)
Definition notCreate (op : Mutation) : Prop :=
  match op with Create _ => False | _ => True end.

(** The event is a snapshot notification. *)
Definition isSnapshot (ev : UIEvent) : Prop :=
  match ev with Snapshot _ => True | _ => False end.

(** * Properties *)

(** ** Strings: lemmas *)

Lemma startsWith_spec s t :
  startsWith s t = true ↔ ∃ post, s = t ++ post.
Proof.
  revert s; induction t as [|c t IH]; intros s; simpl.
  - split; [intros _; by exists s | done].
  - destruct s as [|d s].
    + split; [done | intros [post H]; discriminate].
    + rewrite andb_true_iff, N.eqb_eq, IH. split.
      * intros [-> [post ->]]. eauto.
      * intros [post H]. injection H as -> ->. eauto.
Qed.

Lemma includes_spec s t :
  includes s t = true ↔ ∃ pre post, s = pre ++ t ++ post.
Proof.
  induction s as [|d s IH]; simpl.
  - rewrite orb_false_r, startsWith_spec. split.
    + intros [post H]. exists [], post. done.
    + intros (pre & post & H). destruct pre; [eauto | discriminate].
  - rewrite orb_true_iff, IH, startsWith_spec. split.
    + intros [[post H] | (pre & post & ->)].
      * exists [], post. done.
      * exists (d :: pre), post. done.
    + intros (pre & post & H). destruct pre as [|e pre].
      * left. eauto.
      * right. injection H as -> ->. eauto.
Qed.

Lemma includes_empty s : includes s [] = true.
Proof. apply includes_spec. exists [], s. done. Qed.

Lemma includes_lower_spec {engine : Engine} q s :
  includes (toLowerCase s) (toLowerCase q) = true ↔ lowerOccursIn q s.
Proof. apply includes_spec. Qed.

(** ** Letter case in Basic Latin *)


(** A literal of Basic Latin code units is one. *)
Ltac solve_basicLatin :=
  unfold basicLatin; vm_compute;
  repeat (apply Forall_cons; split; [reflexivity|]); apply Forall_nil_2.







Lemma toLowerCase_empty {engine : Engine} : toLowerCase [] = [].
Proof. by rewrite toLowerCase_basicLatin by apply Forall_nil_2. Qed.

(** On Basic Latin text, the occurrence of the lower-case forms is
    case-insensitive substring matching. *)
Lemma lowerOccursIn_basicLatin {engine : Engine} q s :
  basicLatin q -> basicLatin s ->
  lowerOccursIn q s ↔ substringIgnoringCase q s.
Proof.
  intros Hq Hs. unfold lowerOccursIn, occursIn, substringIgnoringCase, sameIgnoringCase.
  rewrite (toLowerCase_basicLatin q Hq), (toLowerCase_basicLatin s Hs). split.
  - intros (pre & post & H).
    apply fmap_app_inv in H as (s1 & s23 & -> & H & ->). symmetry in H.
    apply fmap_app_inv in H as (s2 & s3 & H2 & -> & ->).
    exists s1, s2, s3. done.
  - intros (pre & u & post & -> & Hu).
    exists (BasicLatin.lower <$> pre), (BasicLatin.lower <$> post).
    by rewrite !fmap_app, Hu.
Qed.

(** ** [Array.prototype.filter] *)

Lemma Array_filter_Selects {A} (f : A -> bool) (P : A -> Prop) l :
  (∀ x, f x = true ↔ P x) -> Selects P l (Array_filter f l).
Proof.
  intros Hf. induction l as [|x l IH]; simpl; [constructor|].
  destruct (f x) eqn:Hx.
  - apply Selects_keep; [by apply Hf | done].
  - apply Selects_drop; [|done]. rewrite <- Hf. congruence.
Qed.

Lemma Array_filter_sublist {A} (f : A -> bool) l : sublist (Array_filter f l) l.
Proof.
  induction l as [|x l IH]; simpl; [constructor|].
  destruct (f x); by constructor.
Qed.

Lemma Array_filter_idem {A} (f : A -> bool) l :
  Array_filter f (Array_filter f l) = Array_filter f l.
Proof.
  induction l as [|x l IH]; simpl; [done|].
  destruct (f x) eqn:Hx; simpl; [rewrite Hx, IH|]; done.
Qed.

Lemma Array_filter_ext {A} (f g : A -> bool) l :
  (∀ x, f x = g x) -> Array_filter f l = Array_filter g l.
Proof.
  intros Hfg. induction l as [|x l IH]; simpl; [done|]. by rewrite Hfg, IH.
Qed.

Lemma Array_filter_all {A} (f : A -> bool) l :
  (∀ x, f x = true) -> Array_filter f l = l.
Proof.
  intros Hf. induction l as [|x l IH]; simpl; [done|]. by rewrite Hf, IH.
Qed.

(** A list selected from [l] is determined by the predicate. *)
Lemma Selects_unique {A} (P : A -> Prop) l l1 l2 :
  Selects P l l1 -> Selects P l l2 -> l1 = l2.
Proof.
  intros H1. revert l2.
  induction H1 as [|x l l1 HP _ IH|x l l1 HP _ IH]; intros l2 H2;
    inversion H2; subst; try contradiction; [done | f_equal |]; auto.
Qed.

(** ** The predicate of the filter *)

Lemma matchesSearch_spec {engine : Engine} q p :
  matchesSearch q p = true ↔ ∃ s, s ∈ searchedFields p ∧ lowerOccursIn q s.
Proof.
  unfold matchesSearch, searchedFields.
  rewrite !orb_true_iff, !includes_lower_spec. split.
  - intros [[[H|H]|H]|H]; eexists; (split; [|exact H]); set_solver.
  - intros (s & Hs & H).
    rewrite !elem_of_cons, elem_of_nil in Hs.
    destruct Hs as [->|[->|[->|[->|[]]]]]; tauto.
Qed.

Lemma matchesType_spec t p :
  matchesType t p = true ↔ t = ALL ∨ t = Only (Post.type p).
Proof.
  destruct t as [|ty]; simpl.
  - split; [by left | done].
  - destruct p as [? ty' ?]; simpl. destruct ty, ty'; simpl; split;
      first [done | by right | intros [?|?]; congruence].
Qed.

Lemma keeps_spec {engine : Engine} q t p :
  matchesSearch q p && matchesType t p = true ↔ wanted q t p.
Proof.
  unfold wanted. rewrite andb_true_iff, matchesSearch_spec, matchesType_spec. tauto.
Qed.

Lemma matchesSearch_empty {engine : Engine} p : matchesSearch [] p = true.
Proof. unfold matchesSearch. by rewrite toLowerCase_empty, includes_empty. Qed.


(** ** The filter *)

(** C1, as stated, fails.  The capital sigma is a substring of the title
    as it is written, let alone up to letter case; yet the filter drops
    the post: the sigma that ends the title becomes the final sigma
    (U+03C2), that of the query the small sigma (U+03C3). *)
Lemma filteredPosts_final_sigma_counterexample :
  occursIn capital_sigma (Post.title post_odos)
  ∧ toLowerCase (Post.title post_odos) = [0x3BF; 0x3B4; 0x3BF; 0x3C2]
  ∧ toLowerCase capital_sigma = [0x3C3]
  ∧ filteredPosts [post_odos] capital_sigma ALL = []
  ∧ post_odos ∉ filteredPosts [post_odos] capital_sigma ALL.
Proof.
  split_and!; try reflexivity.
  - exists [0x39F; 0x394; 0x39F], []. reflexivity.
  - vm_compute. apply not_elem_of_nil.
Qed.

(** C1, amended.  Whatever the engine, for every mirror, query and type
    filter, [filteredPosts] returns exactly the posts of the mirror, in the
    mirror's order, whose type the filter admits (ALL, or the post's own
    type) and for which the lower-case form of the query occurs in the
    lower-case form of the title, description, location or category; on
    Basic Latin text that is: the query is, up to letter case, a substring
    of the field.  The empty query keeps every post the type filter
    admits, the result is a subsequence of the mirror, and in the mirror
    [a: LOST "Blue Wallet"; b: FOUND "Red Keys"] the query "key" with ALL
    returns exactly [b]. *)
Theorem filteredPosts_spec {engine : Engine} :
  (∀ M q t, Selects (wanted q t) M (filteredPosts M q t))
  ∧ (∀ M q t l, Selects (wanted q t) M l -> l = filteredPosts M q t)
  ∧ (∀ q s, basicLatin q -> basicLatin s ->
       lowerOccursIn q s ↔ substringIgnoringCase q s)
  ∧ (∀ M t, Selects (fun p => t = ALL ∨ t = Only (Post.type p)) M
               (filteredPosts M [] t))
  ∧ (∀ M, filteredPosts M [] ALL = M)
  ∧ (∀ M q t, sublist (filteredPosts M q t) M)
  ∧ filteredPosts [post_a; post_b] (js "key") ALL = [post_b].
Proof.
  split_and!.
  - intros M q t. apply Array_filter_Selects. intros p. apply keeps_spec.
  - intros M q t l Hl. eapply Selects_unique; [exact Hl|].
    apply Array_filter_Selects. intros p. apply keeps_spec.
  - intros q s. apply lowerOccursIn_basicLatin.
  - intros M t. apply Array_filter_Selects. intros p.
    rewrite matchesSearch_empty. apply matchesType_spec.
  - intros M. apply Array_filter_all. intros p. by rewrite matchesSearch_empty.
  - intros M q t. apply Array_filter_sublist.
  - unfold filteredPosts, matchesSearch. simpl.
    rewrite (toLowerCase_basicLatin (js "key")) by solve_basicLatin.
    rewrite (toLowerCase_basicLatin (js "Blue Wallet")) by solve_basicLatin.
    rewrite (toLowerCase_basicLatin (js "Red Keys")) by solve_basicLatin.
    rewrite toLowerCase_empty. reflexivity.
Qed.

(** The clauses of C1 with a hypothesis, at the scenario's mirror and
    query, on the engine for concrete runs. *)
Lemma filteredPosts_spec_witness :
  Selects (wanted (js "key") ALL) [post_a; post_b] [post_b]
  ∧ [post_b] = filteredPosts [post_a; post_b] (js "key") ALL
  ∧ (lowerOccursIn (js "key") (js "Red Keys")
     ↔ substringIgnoringCase (js "key") (js "Red Keys")).
Proof.
  assert (H : Selects (wanted (js "key") ALL) [post_a; post_b] [post_b]).
  { apply Selects_drop; [|apply Selects_keep; [|constructor]].
    - rewrite <- keeps_spec. vm_compute. discriminate.
    - rewrite <- keeps_spec. vm_compute. reflexivity. }
  destruct (filteredPosts_spec (engine := tableEngine)) as (_ & Huniq & Hlatin & _).
  split_and!.
  - exact H.
  - exact (Huniq [post_a; post_b] (js "key") ALL [post_b] H).
  - apply Hlatin; vm_compute; repeat (apply Forall_cons; split; [reflexivity|]);
      apply Forall_nil_2.
Defined.

(** C8.  Filtering is idempotent, and it is a function of its three
    inputs: equal inputs give equal results. *)
Theorem filteredPosts_idempotent_deterministic {engine : Engine} M q t :
  filteredPosts (filteredPosts M q t) q t = filteredPosts M q t
  ∧ ∀ M' q' t', M' = M -> q' = q -> t' = t ->
      filteredPosts M' q' t' = filteredPosts M q t.
Proof.
  split.
  - apply Array_filter_idem.
  - intros M' q' t' -> -> ->. reflexivity.
Qed.

Lemma filteredPosts_idempotent_deterministic_witness :
  filteredPosts (filteredPosts [post_a; post_b] (js "key") ALL) (js "key") ALL
    = [post_b]
  ∧ filteredPosts ([post_a] ++ [post_b]) (js "k" ++ js "ey") ALL
    = filteredPosts [post_a; post_b] (js "key") ALL.
Proof.
  destruct (filteredPosts_idempotent_deterministic [post_a; post_b] (js "key") ALL)
    as [Hidem Hdet].
  split.
  - rewrite Hidem. reflexivity.
  - apply Hdet; reflexivity.
Defined.




(** ** Running the handlers *)

Ltac run_M :=
  unfold world_after, effects_of, result_of, perform, submitCreateForm,
    handleCreatePost, handleResolvePost, handleDeletePost, uploadImageToImgBB,
    fetch_json, addDoc, updateDoc, deleteDoc, confirm, alert, console_error,
    preventDefault, setIsSubmitting, setIsModalOpen, setFormState,
    get_remote, modify_remote, modify_app, emit, throw,
    try_catch, try_finally, mbind, M_bind, bind, mret, M_ret, ret in *.

(** C2, as stated, fails.  Signed out, the create handler returns without
    reporting any failure, and the resolve and delete handlers, which do
    not look at the session, issue their write once the dialog is
    confirmed: the stored post "p1" becomes RESOLVED, resp. is removed. *)
Lemma mutations_signed_out_counterexample :
  user signed_out = None
  ∧ handleCreatePost env_ok signed_out world_signed_out
    = (inr tt, world_signed_out, [PreventDefault])
  ∧ effects_of (handleResolvePost env_ok (js "p1")) world_signed_out
    = [Confirm "Are you sure you want to mark this item as resolved/found?";
       UpdateDoc "posts" (js "p1") resolved_fields]
  ∧ (remote (world_after (handleResolvePost env_ok (js "p1")) world_signed_out)
       !! js "p1") ≫= statusOf = Some RESOLVED
  ∧ effects_of (handleDeletePost env_ok (js "p1")) world_signed_out
    = [Confirm "Are you sure you want to delete this post? This cannot be undone.";
       DeleteDoc "posts" (js "p1")]
  ∧ remote (world_after (handleDeletePost env_ok (js "p1")) world_signed_out)
      !! js "p1" = None.
Proof. vm_compute. split_and!; reflexivity. Qed.

(** C2, amended.  With no authenticated session the create handler makes
    no remote call, issues no write, changes nothing and reports no
    failure: it returns at once.  The resolve and delete handlers behave
    the same whatever the session is: declined at the dialog they make no
    remote call, confirmed they issue their write. *)
Theorem mutations_signed_out env st w postId :
  user st = None ->
  handleCreatePost env st w = (inr tt, w, [PreventDefault])
  ∧ (∀ w', remote w' = remote w ->
       effects_of (handleResolvePost env postId) w'
         = effects_of (handleResolvePost env postId) w
       ∧ remote (world_after (handleResolvePost env postId) w')
         = remote (world_after (handleResolvePost env postId) w)
       ∧ effects_of (handleDeletePost env postId) w'
         = effects_of (handleDeletePost env postId) w
       ∧ remote (world_after (handleDeletePost env postId) w')
         = remote (world_after (handleDeletePost env postId) w))
  ∧ (confirm_answer env = false ->
       Array_filter isRemoteCall (effects_of (handleResolvePost env postId) w) = []
       ∧ world_after (handleResolvePost env postId) w = w
       ∧ Array_filter isRemoteCall (effects_of (handleDeletePost env postId) w) = []
       ∧ world_after (handleDeletePost env postId) w = w)
  ∧ (confirm_answer env = true ->
       Array_filter isRemoteCall (effects_of (handleResolvePost env postId) w)
         = [UpdateDoc "posts" postId resolved_fields]
       ∧ Array_filter isRemoteCall (effects_of (handleDeletePost env postId) w)
         = [DeleteDoc "posts" postId]).
Proof.
  intros Hu. split_and!.
  - run_M. rewrite Hu. destruct w. reflexivity.
  - intros w' Hw'. run_M. simpl.
    destruct (confirm_answer env); simpl; [|done].
    destruct (write_fault env); simpl; [done|].
    rewrite Hw'. destruct (remote w !! postId); simpl; rewrite ?Hw'; done.
  - intros Hc. run_M. rewrite Hc. simpl. destruct w. done.
  - intros Hc. run_M. rewrite Hc. simpl.
    destruct (write_fault env); simpl; [done|].
    destruct (remote w !! postId); simpl; done.
Qed.

Lemma mutations_signed_out_witness :
  user signed_out = None
  ∧ handleCreatePost env_ok signed_out world_signed_out
    = (inr tt, world_signed_out, [PreventDefault]).
Proof.
  split; [reflexivity|].
  apply (mutations_signed_out env_ok signed_out world_signed_out (js "p1")).
  reflexivity.
Defined.

(** C3, as stated, fails.  [visitor] has no e-mail, so the form's e-mail
    is empty; the form is submitted all the same (its e-mail input is
    read-only), the document is written with the empty [contactEmail], and
    no failure is reported.  Called with an empty title, the handler
    writes the document too. *)
Lemma create_missing_field_counterexample :
  NewPostForm.contactEmail (formState visitor_session) = []
  ∧ Array_filter isWrite (effects_of (submitCreateForm env_ok visitor_session) world_visitor)
    = [AddDoc "posts"
         (<["createdAt" := serverTimestamp]>
            (newPost env_ok (formState visitor_session) visitor []))]
  ∧ Array_filter isFailureReport
      (effects_of (submitCreateForm env_ok visitor_session) world_visitor) = []
  ∧ (remote (world_after (submitCreateForm env_ok visitor_session) world_visitor)
       !! js "p2") ≫= (.!! "contactEmail") = Some (VString [])
  ∧ NewPostForm.title (formState untitled_session) = []
  ∧ (remote (world_after (handleCreatePost env_ok untitled_session) world_untitled)
       !! js "p2") ≫= (.!! "title") = Some (VString []).
Proof. vm_compute. split_and!; reflexivity. Qed.

(** C3, amended.  A create submitted with an empty title, description,
    location or date is stopped by the form before the create handler
    runs: no remote call, no document written, nothing changed, and no
    error raised.  The handler itself checks no field: signed in and
    without an image, it writes the form's fields as they are. *)
Theorem create_required_fields env st w :
  (NewPostForm.title (formState st) = []
   ∨ NewPostForm.description (formState st) = []
   ∨ NewPostForm.location (formState st) = []
   ∨ NewPostForm.date (formState st) = [] ->
   submitCreateForm env st w = (inr tt, w, []))
  ∧ (∀ u, user st = Some u -> NewPostForm.imageFile (formState st) = None ->
       Array_filter isWrite (effects_of (handleCreatePost env st) w)
       = [AddDoc "posts"
            (<["createdAt" := serverTimestamp]> (newPost env (formState st) u []))]).
Proof.
  split.
  - intros H. unfold submitCreateForm, checkValidity, createForm, valueMissing.
    simpl. destruct H as [-> | [-> | [-> | ->]]]; simpl;
      rewrite ?andb_false_r; reflexivity.
  - intros u Hu Hf. run_M. rewrite Hu, Hf. simpl.
    destruct (write_fault env); simpl; [done|].
    destruct (remote w !! auto_id env); simpl; done.
Qed.

Lemma create_required_fields_witness :
  NewPostForm.title (formState untitled_session) = []
  ∧ submitCreateForm env_ok untitled_session world_untitled
    = (inr tt, world_untitled, [])
  ∧ Array_filter isWrite
      (effects_of (handleCreatePost env_ok untitled_session) world_untitled)
    = [AddDoc "posts"
         (<["createdAt" := serverTimestamp]>
            (newPost env_ok (formState untitled_session) alice []))].
Proof.
  destruct (create_required_fields env_ok untitled_session world_untitled)
    as [Hform Hhandler].
  split_and!.
  - reflexivity.
  - apply Hform. left. reflexivity.
  - apply Hhandler; reflexivity.
Defined.

(** ** The image upload *)

Lemma uploadImageToImgBB_fails env file e w :
  uploadError env file = Some e ->
  uploadImageToImgBB env file w
  = (inl e, w, [Fetch file; ConsoleError "Error uploading image:" e]).
Proof.
  unfold uploadError. run_M.
  destruct (fetch_answer env file) as [e'|e'|[url|message]]; simpl;
    intros [= <-]; reflexivity.
Qed.

Lemma uploadImageToImgBB_succeeds env file w :
  uploadError env file = None ->
  ∃ url, uploadImageToImgBB env file w = (inr url, w, [Fetch file]).
Proof.
  unfold uploadError. run_M.
  destruct (fetch_answer env file) as [e'|e'|[url|message]]; simpl;
    intros [=]. eauto.
Qed.

(** C4.  Signed in and with an image attached, the first remote call of a
    create is the upload.  If the upload fails with an error [e], the
    create fails with that error: it is logged and the failure alert is
    shown, no document write is issued and the remote collection is
    unchanged. *)
Theorem create_upload_failure env st w u file :
  user st = Some u ->
  NewPostForm.imageFile (formState st) = Some file ->
  (∃ rest, Array_filter isRemoteCall (effects_of (handleCreatePost env st) w)
           = Fetch file :: rest)
  ∧ (∀ e, uploadError env file = Some e ->
       effects_of (handleCreatePost env st) w
       = [PreventDefault; SetIsSubmitting true; Fetch file;
          ConsoleError "Error uploading image:" e;
          ConsoleError "Error creating post:" e;
          Alert "Failed to create post. Please try again.";
          SetIsSubmitting false]
       ∧ Array_filter isWrite (effects_of (handleCreatePost env st) w) = []
       ∧ remote (world_after (handleCreatePost env st) w) = remote w).
Proof.
  intros Hu Hf. split.
  - destruct (uploadError env file) as [e|] eqn:He.
    + pose proof (uploadImageToImgBB_fails env file e) as Hup.
      unfold effects_of, handleCreatePost. rewrite Hu, Hf.
      run_M. simpl. rewrite Hup by done. simpl. eauto.
    + unfold effects_of, handleCreatePost. rewrite Hu, Hf.
      run_M. simpl. unfold uploadError in He.
      destruct (fetch_answer env file) as [e'|e'|[url|message]]; simpl;
        try discriminate He.
      destruct (write_fault env); simpl; [eauto|].
      destruct (remote w !! auto_id env); simpl; eauto.
  - intros e He. pose proof (uploadImageToImgBB_fails env file e) as Hup.
    unfold effects_of, world_after, handleCreatePost. rewrite Hu, Hf.
    run_M. simpl. rewrite Hup by done. simpl. done.
Qed.

Lemma create_upload_failure_witness :
  uploadError env_host_down photo = Some (TypeError (js "Failed to fetch"))
  ∧ Array_filter isWrite (effects_of (handleCreatePost env_host_down photo_session) world_photo) = []
  ∧ remote (world_after (handleCreatePost env_host_down photo_session) world_photo)
    = remote world_photo.
Proof.
  split; [reflexivity|].
  destruct (create_upload_failure env_host_down photo_session world_photo alice photo
              eq_refl eq_refl) as [_ Hfail].
  destruct (Hfail (TypeError (js "Failed to fetch")) eq_refl) as (_ & Hw & Hr).
  split; [exact Hw | exact Hr].
Defined.

(** ** What the create handler writes *)

Ltac elem_of_effects H :=
  rewrite ?elem_of_cons, ?elem_of_nil in H;
  repeat match type of H with _ ∨ _ => destruct H as [H|H] end;
  try discriminate H; try contradiction.

(** Every document the create handler passes to the store is the
    [newPost] literal with [createdAt] replaced by the sentinel. *)
Lemma handleCreatePost_AddDoc env st w c data :
  AddDoc c data ∈ effects_of (handleCreatePost env st) w ->
  ∃ u imageUrl,
    user st = Some u ∧ c = "posts"
    ∧ data = <["createdAt" := serverTimestamp]> (newPost env (formState st) u imageUrl).
Proof.
  run_M. destruct (user st) as [u|] eqn:Hu; simpl.
  2: { intros H. elem_of_effects H. }
  destruct (NewPostForm.imageFile (formState st)) as [file|]; simpl.
  - destruct (fetch_answer env file) as [e|e|[url|message]]; simpl;
      try (intros H; elem_of_effects H; fail).
    destruct (write_fault env); simpl;
      [|destruct (remote w !! auto_id env); simpl];
      intros H; elem_of_effects H; injection H as -> ->;
      eexists _, _; split_and!; reflexivity.
  - destruct (write_fault env); simpl;
      [|destruct (remote w !! auto_id env); simpl];
      intros H; elem_of_effects H; injection H as -> ->;
      eexists _, _; split_and!; reflexivity.
Qed.

(** The remote collection after a create: unchanged, or one document more,
    under a free id, committed from what the handler wrote. *)
Lemma handleCreatePost_remote env st w :
  remote (world_after (handleCreatePost env st) w) = remote w
  ∨ ∃ u imageUrl,
      user st = Some u ∧ remote w !! auto_id env = None
      ∧ remote (world_after (handleCreatePost env st) w)
        = <[auto_id env :=
              committed env (<["createdAt" := serverTimestamp]>
                               (newPost env (formState st) u imageUrl))]>
            (remote w).
Proof.
  run_M. destruct (user st) as [u|] eqn:Hu; simpl; [|by left].
  destruct (NewPostForm.imageFile (formState st)) as [file|]; simpl.
  - destruct (fetch_answer env file) as [e|e|[url|message]]; simpl;
      try (by left).
    destruct (write_fault env); simpl; [by left|].
    destruct (remote w !! auto_id env) eqn:Hid; simpl; [by left|].
    right. eauto.
  - destruct (write_fault env); simpl; [by left|].
    destruct (remote w !! auto_id env) eqn:Hid; simpl; [by left|].
    right. eauto.
Qed.

Lemma handleResolvePost_remote env postId w :
  remote (world_after (handleResolvePost env postId) w) = remote w
  ∨ ∃ old,
      remote w !! postId = Some old
      ∧ remote (world_after (handleResolvePost env postId) w)
        = <[postId := committed env resolved_fields ∪ old]> (remote w).
Proof.
  run_M. simpl. destruct (confirm_answer env); simpl; [|by left].
  destruct (write_fault env); simpl; [by left|].
  destruct (remote w !! postId) eqn:Hid; simpl; [|by left].
  right. eauto.
Qed.

Lemma handleDeletePost_remote env postId w :
  remote (world_after (handleDeletePost env postId) w) = remote w
  ∨ remote (world_after (handleDeletePost env postId) w) = delete postId (remote w).
Proof.
  run_M. simpl. destruct (confirm_answer env); simpl; [|by left].
  destruct (write_fault env); simpl; [by left | by right].
Qed.

(** Fields of the written and of the committed document. *)
Lemma written_createdAt env form u imageUrl :
  (<["createdAt" := serverTimestamp]> (newPost env form u imageUrl)) !! "createdAt"
  = Some VServerTimestamp.
Proof. apply lookup_insert_eq. Qed.

Lemma written_field env form u imageUrl k :
  k ≠ "createdAt" ->
  (<["createdAt" := serverTimestamp]> (newPost env form u imageUrl)) !! k
  = newPost env form u imageUrl !! k.
Proof. intros Hk. by apply lookup_insert_ne. Qed.

Lemma committed_lookup env data k :
  committed env data !! k
  = (fun v => match v with
              | VServerTimestamp => VTimestamp (server_time env)
              | _ => v
              end) <$> data !! k.
Proof. unfold committed. apply lookup_fmap. Qed.

Lemma newPost_status env form u imageUrl :
  newPost env form u imageUrl !! "status" = Some (VString (js "OPEN")).
Proof. reflexivity. Qed.

Lemma newPost_creatorName env form u imageUrl :
  newPost env form u imageUrl !! "creatorName"
  = Some (VString (or_string (User.displayName u) (js "Anonymous"))).
Proof. reflexivity. Qed.

Lemma newPost_creatorPhoto env form u imageUrl :
  newPost env form u imageUrl !! "creatorPhoto"
  = Some (VString (or_string (User.photoURL u) [])).
Proof. reflexivity. Qed.

(** The client clock enters [newPost] in [createdAt] only, which the
    handler overwrites. *)
Lemma written_ignores_clock env env' form u imageUrl :
  <["createdAt" := serverTimestamp]> (newPost env form u imageUrl)
  = <["createdAt" := serverTimestamp]> (newPost env' form u imageUrl).
Proof.
  apply map_eq. intros k. destruct (decide (k = "createdAt")) as [->|Hk].
  - by rewrite !lookup_insert_eq.
  - rewrite !lookup_insert_ne by done. unfold newPost. simpl.
    rewrite !lookup_insert. repeat case_decide; congruence.
Qed.

(** C6.  The document a create passes to the store has the
    server-timestamp sentinel in [createdAt]; the document the store then
    holds has the server's time there; and the client clock has no
    influence on the run at all. *)
Theorem create_server_timestamp env st w :
  (∀ c data, AddDoc c data ∈ effects_of (handleCreatePost env st) w ->
     data !! "createdAt" = Some VServerTimestamp)
  ∧ (∀ id d, remote w !! id = None ->
       remote (world_after (handleCreatePost env st) w) !! id = Some d ->
       d !! "createdAt" = Some (VTimestamp (server_time env)))
  ∧ (∀ now, handleCreatePost (with_clock now env) st w = handleCreatePost env st w).
Proof.
  split_and!.
  - intros c data H.
    apply handleCreatePost_AddDoc in H as (u & url & _ & _ & ->).
    apply written_createdAt.
  - intros id d Hid Hd.
    destruct (handleCreatePost_remote env st w) as [Heq | (u & url & _ & _ & Heq)];
      rewrite Heq in Hd; [congruence|].
    rewrite lookup_insert in Hd. case_decide; [|congruence].
    injection Hd as <-. by rewrite committed_lookup, written_createdAt.
  - intros now. run_M. unfold with_clock. simpl.
    destruct (user st) as [u|]; simpl; [|done].
    destruct (NewPostForm.imageFile (formState st)) as [file|]; simpl;
      [destruct (fetch_answer env file) as [e|e|[url|message]]; simpl; try done|];
      rewrite (written_ignores_clock (with_clock now env) env);
      unfold committed; simpl;
      (destruct (write_fault env); simpl; [done|]);
      destruct (remote w !! auto_id env); simpl; done.
Qed.

Lemma create_server_timestamp_witness :
  remote world_photo !! js "p2" = None
  ∧ (remote (world_after (handleCreatePost env_ok photo_session) world_photo)
       !! js "p2") ≫= (.!! "createdAt")
    = Some (VTimestamp (server_time env_ok)).
Proof.
  split; [reflexivity|].
  destruct (create_server_timestamp env_ok photo_session world_photo)
    as (_ & Hstored & _).
  destruct (remote (world_after (handleCreatePost env_ok photo_session) world_photo)
              !! js "p2") as [d|] eqn:Hd; [|vm_compute in Hd; discriminate Hd].
  simpl. apply (Hstored (js "p2") d); [reflexivity | exact Hd].
Defined.

(** C10.  In every document a create writes, and in the document the
    store then holds, [creatorName] is 'Anonymous' when the user has no
    display name, [creatorPhoto] is the empty string when the user has no
    photo, and both fields are strings, never null. *)
Theorem create_creator_defaults env st w u :
  user st = Some u ->
  (∀ c data, AddDoc c data ∈ effects_of (handleCreatePost env st) w ->
     creatorDefaults u data)
  ∧ (∀ id d, remote w !! id = None ->
       remote (world_after (handleCreatePost env st) w) !! id = Some d ->
       creatorDefaults u d).
Proof.
  intros Hu.
  assert (Hwritten : ∀ url,
    creatorDefaults u
      (<["createdAt" := serverTimestamp]> (newPost env (formState st) u url))).
  { intros url. unfold creatorDefaults.
    rewrite !written_field, newPost_creatorName, newPost_creatorPhoto by done.
    split_and!; [by intros -> | by intros -> | eauto | eauto]. }
  split.
  - intros c data H.
    apply handleCreatePost_AddDoc in H as (u' & url & Hu' & _ & ->).
    replace u' with u in * by congruence. apply Hwritten.
  - intros id d Hid Hd.
    destruct (handleCreatePost_remote env st w) as [Heq | (u' & url & Hu' & _ & Heq)];
      rewrite Heq in Hd; [congruence|].
    replace u' with u in * by congruence.
    rewrite lookup_insert in Hd. case_decide; [|congruence].
    injection Hd as <-. specialize (Hwritten url).
    unfold creatorDefaults in *. rewrite !committed_lookup.
    destruct Hwritten as (Hn & Hp & [n Hn'] & [p Hp']).
    rewrite Hn', Hp' in *. simpl. split_and!; eauto.
Qed.

Lemma create_creator_defaults_witness :
  user visitor_session = Some visitor
  ∧ remote world_visitor !! js "p2" = None
  ∧ (remote (world_after (handleCreatePost env_ok visitor_session) world_visitor)
       !! js "p2") ≫= (.!! "creatorName")
    = Some (VString (js "Anonymous")).
Proof.
  split; [reflexivity|]. split; [reflexivity|].
  destruct (create_creator_defaults env_ok visitor_session world_visitor visitor
              eq_refl) as [_ Hstored].
  destruct (remote (world_after (handleCreatePost env_ok visitor_session) world_visitor)
              !! js "p2") as [d|] eqn:Hd; [|vm_compute in Hd; discriminate Hd].
  simpl. destruct (Hstored (js "p2") d eq_refl Hd) as (Hname & _).
  apply Hname. reflexivity.
Defined.

(** ** The status of a stored post *)

Lemma statusOf_created env form u imageUrl :
  statusOf (committed env (<["createdAt" := serverTimestamp]>
                             (newPost env form u imageUrl))) = Some OPEN.
Proof.
  unfold statusOf.
  by rewrite committed_lookup, written_field, newPost_status.
Qed.

Lemma statusOf_resolved env old :
  statusOf (committed env resolved_fields ∪ old) = Some RESOLVED.
Proof.
  assert (H : (committed env resolved_fields ∪ old) !! "status"
              = Some (VString (js "RESOLVED"))).
  { apply lookup_union_Some_l. rewrite committed_lookup. reflexivity. }
  unfold statusOf. rewrite H. reflexivity.
Qed.

(** One mutation, seen from a post that is stored before and after it:
    the post is untouched, or it has just been resolved. *)
Lemma perform_stored env op w id d d' :
  remote w !! id = Some d ->
  remote (world_after (perform env op) w) !! id = Some d' ->
  d' = d ∨ statusOf d' = Some RESOLVED.
Proof.
  intros Hd Hd'. destruct op as [st|postId|postId]; simpl in Hd'.
  - destruct (handleCreatePost_remote env st w) as [Heq | (u & url & _ & Hfree & Heq)];
      rewrite Heq in Hd'; [left; congruence|].
    rewrite lookup_insert_ne in Hd' by congruence. left; congruence.
  - destruct (handleResolvePost_remote env postId w) as [Heq | (old & Hold & Heq)];
      rewrite Heq in Hd'; [left; congruence|].
    rewrite lookup_insert in Hd'. case_decide; [|left; congruence].
    injection Hd' as <-. right. apply statusOf_resolved.
  - destruct (handleDeletePost_remote env postId w) as [Heq | Heq];
      rewrite Heq in Hd'; [left; congruence|].
    apply lookup_delete_Some in Hd' as [_ Hd']. left; congruence.
Qed.

Lemma trace_head ops w : ∃ ws, trace ops w = w :: ws.
Proof. destruct ops as [|[env op] ops]; simpl; eauto. Qed.

(** C5.  A post is stored with status OPEN when it is created; a mutation
    changes the status of a stored post only to RESOLVED, so a RESOLVED
    post is never OPEN again; resolving a RESOLVED post leaves it RESOLVED
    and reports no failure; and along any sequence of creates, resolves
    and deletes, a post that stays stored and is RESOLVED at some point is
    RESOLVED from then on. *)
Theorem status_one_way :
  (∀ env st w id d,
     remote w !! id = None ->
     remote (world_after (perform env (Create st)) w) !! id = Some d ->
     statusOf d = Some OPEN)
  ∧ (∀ env op w id,
       is_Some (remote w !! id) ->
       is_Some (remote (world_after (perform env op) w) !! id) ->
       (statusAt id w = Some RESOLVED ->
        statusAt id (world_after (perform env op) w) = Some RESOLVED)
       ∧ (statusAt id (world_after (perform env op) w) ≠ statusAt id w ->
          statusAt id (world_after (perform env op) w) = Some RESOLVED))
  ∧ (∀ env w id,
       statusAt id w = Some RESOLVED ->
       confirm_answer env = true -> write_fault env = None ->
       statusAt id (world_after (perform env (Resolve id)) w) = Some RESOLVED
       ∧ Array_filter isFailureReport (effects_of (perform env (Resolve id)) w) = [])
  ∧ (∀ ops w id,
       Forall (fun w' => is_Some (remote w' !! id)) (trace ops w) ->
       statusAt id w = Some RESOLVED ->
       Forall (fun w' => statusAt id w' = Some RESOLVED) (trace ops w)).
Proof.
  assert (Hstep : ∀ env op w id,
    is_Some (remote w !! id) ->
    is_Some (remote (world_after (perform env op) w) !! id) ->
    statusAt id (world_after (perform env op) w) = statusAt id w
    ∨ statusAt id (world_after (perform env op) w) = Some RESOLVED).
  { intros env op w id [d Hd] [d' Hd']. unfold statusAt.
    destruct (perform_stored env op w id d d' Hd Hd') as [-> | Hres];
      rewrite Hd, Hd'; simpl; auto. }
  split_and!.
  - intros env st w id d Hid Hd. simpl in Hd.
    destruct (handleCreatePost_remote env st w) as [Heq | (u & url & _ & _ & Heq)];
      rewrite Heq in Hd; [congruence|].
    rewrite lookup_insert in Hd. case_decide; [|congruence].
    injection Hd as <-. apply statusOf_created.
  - intros env op w id Hbefore Hafter.
    destruct (Hstep env op w id Hbefore Hafter) as [Heq | Hres]; split;
      congruence.
  - intros env w id Hres Hc Hf. unfold statusAt in *.
    destruct (remote w !! id) as [d|] eqn:Hd; [|discriminate Hres].
    run_M. simpl. rewrite Hc, Hf. simpl. rewrite Hd. simpl.
    rewrite lookup_insert_eq. simpl. split; [apply statusOf_resolved | done].
  - intros ops. induction ops as [|[env op] ops IH]; intros w id Hstored Hres.
    + simpl. by repeat constructor.
    + simpl in *. apply Forall_cons in Hstored as [Hw Hrest].
      apply Forall_cons. split; [done|].
      apply IH; [done|].
      destruct (trace_head ops (world_after (perform env op) w)) as [ws Hws].
      rewrite Hws in Hrest. apply Forall_cons in Hrest as [Hw1 _].
      destruct (Hstep env op w id Hw Hw1) as [Heq | Hres1]; congruence.
Qed.

Lemma status_one_way_witness :
  statusAt (js "p1") (world_with signed_out "RESOLVED") = Some RESOLVED
  ∧ statusAt (js "p1")
      (world_after (perform env_ok (Resolve (js "p1")))
         (world_with signed_out "RESOLVED")) = Some RESOLVED
  ∧ Forall (fun w' => statusAt (js "p1") w' = Some RESOLVED)
      (trace [(env_ok, Create photo_session); (env_ok, Resolve (js "p1"));
              (env_ok, Delete (js "p2"))]
         (world_with signed_out "RESOLVED"))
  ∧ statusAt (js "p2")
      (world_after (perform env_ok (Create photo_session))
         (world_with signed_out "RESOLVED")) = Some OPEN.
Proof.
  destruct status_one_way as (Hcreate & _ & Hresolve & Htrace).
  split_and!.
  - reflexivity.
  - apply Hresolve; reflexivity.
  - apply Htrace; [|reflexivity].
    repeat (apply Forall_cons; split; [by vm_compute; eexists|]).
    apply Forall_nil_2.
  - unfold statusAt.
    destruct (remote (world_after (perform env_ok (Create photo_session))
                        (world_with signed_out "RESOLVED")) !! js "p2")
      as [d|] eqn:Hd; [|vm_compute in Hd; discriminate Hd].
    simpl. apply (Hcreate env_ok photo_session (world_with signed_out "RESOLVED")
                    (js "p2") d); [reflexivity | exact Hd].
Defined.

(** ** The snapshot listener *)

Lemma fetchedPost_createdAt doc :
  fetchedPost doc !! "createdAt" = Some (normalizedCreatedAt (doc_data doc)).
Proof. unfold fetchedPost. apply lookup_insert_eq. Qed.

(** The mutations keep every stored post stamped. *)
Lemma perform_stamped env op w :
  createdAtStamped (remote w) ->
  createdAtStamped (remote (world_after (perform env op) w)).
Proof.
  intros Hw id d Hd. destruct op as [st|postId|postId]; simpl in Hd.
  - destruct (handleCreatePost_remote env st w) as [Heq | (u & url & _ & _ & Heq)];
      rewrite Heq in Hd; [by eapply Hw|].
    rewrite lookup_insert in Hd. case_decide; [|by eapply Hw].
    injection Hd as <-. exists (server_time env).
    by rewrite committed_lookup, written_createdAt.
  - destruct (handleResolvePost_remote env postId w) as [Heq | (old & Hold & Heq)];
      rewrite Heq in Hd; [by eapply Hw|].
    rewrite lookup_insert in Hd. case_decide; [|by eapply Hw].
    injection Hd as <-. subst. destruct (Hw _ _ Hold) as [ts Hts].
    exists ts. rewrite lookup_union_r; [done|].
    rewrite committed_lookup. reflexivity.
  - destruct (handleDeletePost_remote env postId w) as [Heq | Heq];
      rewrite Heq in Hd; [by eapply Hw|].
    apply lookup_delete_Some in Hd as [_ Hd]. by eapply Hw.
Qed.

Lemma exec_stamped ops w :
  createdAtStamped (remote w) -> createdAtStamped (remote (exec ops w)).
Proof.
  revert w. induction ops as [|[env op] ops IH]; intros w Hw; simpl; [done|].
  by apply IH, perform_stamped.
Qed.

(** C7.  The listener stores the normalized posts of the snapshot.  In
    each of them [createdAt] is the timestamp's epoch milliseconds when
    the document holds a timestamp, and the number 0 when the field is
    absent or null; it is never absent and never null.  For the posts the
    mutations of this program store, it is always a number. *)
Theorem snapshot_createdAt_normalized :
  (∀ docs st, posts (onSnapshot_callback docs st) = fetchedPost <$> docs)
  ∧ (∀ doc ts, doc_data doc !! "createdAt" = Some (VTimestamp ts) ->
       fetchedPost doc !! "createdAt" = Some (VNumber (toMillis ts)))
  ∧ (∀ doc, doc_data doc !! "createdAt" = None
            ∨ doc_data doc !! "createdAt" = Some VNull ->
       fetchedPost doc !! "createdAt" = Some (VNumber (Num 0)))
  ∧ (∀ doc, fetchedPost doc !! "createdAt" ≠ None
            ∧ fetchedPost doc !! "createdAt" ≠ Some VNull)
  ∧ (∀ ops w id d, createdAtStamped (remote w) ->
       remote (exec ops w) !! id = Some d ->
       ∃ ts, fetchedPost {| doc_id := id; doc_data := d |} !! "createdAt"
             = Some (VNumber (toMillis ts))).
Proof.
  split_and!.
  - reflexivity.
  - intros doc ts H. rewrite fetchedPost_createdAt.
    unfold normalizedCreatedAt. by rewrite H.
  - intros doc [H|H]; rewrite fetchedPost_createdAt;
      unfold normalizedCreatedAt; by rewrite H.
  - intros doc. rewrite fetchedPost_createdAt. split; [done|].
    unfold normalizedCreatedAt.
    destruct (doc_data doc !! "createdAt") as [[| b | n | s | ts | |]|] eqn:H;
      simpl; try done.
    + destruct b; done.
    + destruct (truthy_number n); done.
    + destruct (truthy_string s); done.
  - intros ops w id d Hw Hd.
    destruct (exec_stamped ops w Hw id d Hd) as [ts Hts].
    exists ts. rewrite fetchedPost_createdAt.
    unfold normalizedCreatedAt. simpl. by rewrite Hts.
Qed.

Lemma snapshot_createdAt_normalized_witness :
  doc_data {| doc_id := js "p1"; doc_data := stored_post "OPEN" |} !! "createdAt"
    = Some (VTimestamp {| seconds := 1714000000; nanoseconds := 0 |})
  ∧ fetchedPost {| doc_id := js "p1"; doc_data := stored_post "OPEN" |} !! "createdAt"
    = Some (VNumber (toMillis {| seconds := 1714000000; nanoseconds := 0 |}))
  ∧ fetchedPost {| doc_id := js "p3"; doc_data := {["createdAt" := VNull]} |} !! "createdAt"
    = Some (VNumber (Num 0)).
Proof.
  destruct snapshot_createdAt_normalized as (_ & Hts & Hnull & _).
  split_and!.
  - reflexivity.
  - apply Hts. reflexivity.
  - apply Hnull. right. reflexivity.
Defined.

(** * Further properties of the code *)

(** From here on [simpl] leaves the object literal of a new post alone. *)
#[local] Arguments newPost : simpl never.
#[local] Arguments committed : simpl never.

(** ** The filter: more laws of [Array.prototype.filter] *)

Lemma Array_filter_filter {A} (f g : A -> bool) l :
  Array_filter g (Array_filter f l) = Array_filter (fun x => f x && g x) l.
Proof.
  induction l as [|x l IH]; simpl; [done|].
  destruct (f x) eqn:Hf; simpl; [|done].
  destruct (g x); simpl; by rewrite IH.
Qed.

Lemma Array_filter_app {A} (f : A -> bool) l1 l2 :
  Array_filter f (l1 ++ l2) = Array_filter f l1 ++ Array_filter f l2.
Proof.
  induction l1 as [|x l1 IH]; simpl; [done|].
  destruct (f x); simpl; by rewrite IH.
Qed.

Lemma Array_filter_Forall {A} (f : A -> bool) l :
  Forall (fun x => f x = true) (Array_filter f l).
Proof.
  induction l as [|x l IH]; simpl; [constructor|].
  destruct (f x) eqn:Hf; [by constructor | done].
Qed.

Lemma Array_filter_sublist_impl {A} (f g : A -> bool) l :
  (∀ x, f x = true -> g x = true) ->
  sublist (Array_filter f l) (Array_filter g l).
Proof.
  intros Hfg. induction l as [|x l IH]; simpl; [constructor|].
  destruct (f x) eqn:Hf.
  - rewrite (Hfg x Hf). by constructor.
  - destruct (g x); [by constructor | done].
Qed.

Lemma Array_filter_split_length {A} (f g h : A -> bool) l :
  (∀ x, f x = true -> xorb (g x) (h x) = true) ->
  (length (Array_filter f l)
   = length (Array_filter (fun x => f x && g x) l)
     + length (Array_filter (fun x => f x && h x) l))%nat.
Proof.
  intros Hx. induction l as [|x l IH]; simpl; [done|].
  destruct (f x) eqn:Hf; simpl; [|done].
  specialize (Hx x Hf). destruct (g x), (h x); simpl in *; try discriminate;
    rewrite IH; lia.
Qed.

Lemma PostType_eqb_eq a b : PostType_eqb a b = true ↔ a = b.
Proof. destruct a, b; simpl; split; congruence. Qed.

(** X1.  Filtering by a type keeps posts of that type only; what it keeps
    is a subsequence of what ALL keeps; and the posts ALL keeps are the
    LOST ones and the FOUND ones, each exactly once. *)
Theorem filteredPosts_by_type {engine : Engine} M q ty :
  Forall (fun p => Post.type p = ty) (filteredPosts M q (Only ty))
  ∧ sublist (filteredPosts M q (Only ty)) (filteredPosts M q ALL)
  ∧ (length (filteredPosts M q ALL)
     = length (filteredPosts M q (Only LOST))
       + length (filteredPosts M q (Only FOUND)))%nat
  ∧ (∀ p, p ∈ filteredPosts M q (Only LOST) -> p ∉ filteredPosts M q (Only FOUND)).
Proof.
  split_and!.
  - eapply Forall_impl; [apply Array_filter_Forall|].
    intros p Hp. simpl in Hp. apply andb_true_iff in Hp as [_ Hp].
    by apply PostType_eqb_eq.
  - apply Array_filter_sublist_impl. intros p Hp.
    apply andb_true_iff in Hp as [-> _]. done.
  - unfold filteredPosts.
    rewrite (Array_filter_ext _ (fun p => matchesSearch q p) M)
      by (intros p; simpl; apply andb_true_r).
    apply (Array_filter_split_length (matchesSearch q)
             (matchesType (Only LOST)) (matchesType (Only FOUND))).
    intros p _. simpl. by destruct (Post.type p).
  - intros p HL HF.
    assert (HtL : Post.type p = LOST).
    { pose proof (Array_filter_Forall
        (fun p => matchesSearch q p && matchesType (Only LOST) p) M) as H.
      rewrite Forall_forall in H. specialize (H p HL).
      apply andb_true_iff in H as [_ H]. by apply PostType_eqb_eq. }
    assert (HtF : Post.type p = FOUND).
    { pose proof (Array_filter_Forall
        (fun p => matchesSearch q p && matchesType (Only FOUND) p) M) as H.
      rewrite Forall_forall in H. specialize (H p HF).
      apply andb_true_iff in H as [_ H]. by apply PostType_eqb_eq. }
    congruence.
Qed.

Lemma filteredPosts_by_type_witness :
  post_a ∈ filteredPosts [post_a; post_b] [] (Only LOST)
  ∧ post_a ∉ filteredPosts [post_a; post_b] [] (Only FOUND).
Proof.
  assert (H : post_a ∈ filteredPosts [post_a; post_b] [] (Only LOST)).
  { vm_compute. apply list_elem_of_here. }
  split; [exact H|].
  destruct (filteredPosts_by_type [post_a; post_b] [] LOST) as (_ & _ & _ & Hdisj).
  exact (Hdisj post_a H).
Defined.

(** X2.  Filters compose: two filters applied one after the other commute;
    searching first and picking a type afterwards is the combined filter;
    and a mirror made of two parts is filtered part by part. *)
Theorem filteredPosts_compose {engine : Engine} M M' q1 t1 q2 t2 :
  filteredPosts (filteredPosts M q1 t1) q2 t2
    = filteredPosts (filteredPosts M q2 t2) q1 t1
  ∧ filteredPosts (filteredPosts M q1 ALL) [] t1 = filteredPosts M q1 t1
  ∧ filteredPosts (M ++ M') q1 t1
    = filteredPosts M q1 t1 ++ filteredPosts M' q1 t1.
Proof.
  unfold filteredPosts. split_and!.
  - rewrite !Array_filter_filter. apply Array_filter_ext. intros p.
    apply andb_comm.
  - rewrite Array_filter_filter. apply Array_filter_ext. intros p.
    rewrite matchesSearch_empty. simpl. by rewrite andb_true_r.
  - apply Array_filter_app.
Qed.

Lemma matchesSearch_narrows {engine : Engine} q q' p :
  lowerOccursIn q q' ->
  matchesSearch q' p = true -> matchesSearch q p = true.
Proof.
  intros (a & b & Hq). rewrite !matchesSearch_spec.
  intros (s & Hs & pre & post & Hsub). exists s. split; [done|].
  exists (pre ++ a), (b ++ post). rewrite Hsub, Hq.
  by rewrite <- !app_assoc.
Qed.

(** X3.  Refining the query narrows the result: if the lower-case form of
    [q] occurs in the lower-case form of [q'], the posts found for [q']
    are a subsequence of those found for [q], and searching [q'] within
    the result for [q] is searching [q'] in the mirror. *)
Theorem filteredPosts_narrows {engine : Engine} M q q' t :
  lowerOccursIn q q' ->
  sublist (filteredPosts M q' t) (filteredPosts M q t)
  ∧ filteredPosts (filteredPosts M q t) q' t = filteredPosts M q' t.
Proof.
  intros Hq. split.
  - apply Array_filter_sublist_impl. intros p Hp.
    apply andb_true_iff in Hp as [Hs Ht].
    by rewrite (matchesSearch_narrows q q' p Hq Hs), Ht.
  - unfold filteredPosts. rewrite Array_filter_filter.
    apply Array_filter_ext. intros p.
    destruct (matchesSearch q' p) eqn:Hs; simpl.
    + rewrite (matchesSearch_narrows q q' p Hq Hs). simpl.
      by destruct (matchesType t p).
    + by rewrite andb_false_r.
Qed.

Lemma filteredPosts_narrows_witness :
  lowerOccursIn (js "key") (js "Keys")
  ∧ sublist (filteredPosts [post_a; post_b] (js "Keys") ALL)
            (filteredPosts [post_a; post_b] (js "key") ALL).
Proof.
  assert (H : lowerOccursIn (js "key") (js "Keys")).
  { exists [], (js "s"). reflexivity. }
  split; [exact H|].
  apply (filteredPosts_narrows [post_a; post_b] (js "key") (js "Keys") ALL H).
Defined.

(** ** Runs of the handlers, case by case *)

Lemma handleResolvePost_run env postId w :
  handleResolvePost env postId w
  = if confirm_answer env then
      match write_fault env, remote w !! postId with
      | Some e, _ =>
          (inr tt, w,
           [Confirm "Are you sure you want to mark this item as resolved/found?";
            UpdateDoc "posts" postId resolved_fields;
            ConsoleError "Error resolving post:" e])
      | None, None =>
          (inr tt, w,
           [Confirm "Are you sure you want to mark this item as resolved/found?";
            UpdateDoc "posts" postId resolved_fields;
            ConsoleError "Error resolving post:" (FirestoreError "not-found")])
      | None, Some old =>
          (inr tt,
           {| client := client w;
              remote := <[postId := committed env resolved_fields ∪ old]> (remote w) |},
           [Confirm "Are you sure you want to mark this item as resolved/found?";
            UpdateDoc "posts" postId resolved_fields])
      end
    else
      (inr tt, w,
       [Confirm "Are you sure you want to mark this item as resolved/found?"]).
Proof.
  run_M. simpl. destruct (confirm_answer env); simpl; [|by destruct w].
  destruct (write_fault env); simpl; [by destruct w|].
  destruct (remote w !! postId); simpl; by destruct w.
Qed.

Lemma handleDeletePost_run env postId w :
  handleDeletePost env postId w
  = if confirm_answer env then
      match write_fault env with
      | Some e =>
          (inr tt, w,
           [Confirm "Are you sure you want to delete this post? This cannot be undone.";
            DeleteDoc "posts" postId;
            ConsoleError "Error deleting post:" e])
      | None =>
          (inr tt,
           {| client := client w; remote := delete postId (remote w) |},
           [Confirm "Are you sure you want to delete this post? This cannot be undone.";
            DeleteDoc "posts" postId])
      end
    else
      (inr tt, w,
       [Confirm "Are you sure you want to delete this post? This cannot be undone."]).
Proof.
  run_M. simpl. destruct (confirm_answer env); simpl; [|by destruct w].
  destruct (write_fault env); simpl; by destruct w.
Qed.

(** A create that goes through. *)
Lemma handleCreatePost_through_run env st w u url :
  user st = Some u ->
  uploadedUrl env (formState st) = Some url ->
  write_fault env = None ->
  remote w !! auto_id env = None ->
  handleCreatePost env st w
  = (inr tt,
     {| client :=
          {| user := user (client w); posts := posts (client w);
             loading := loading (client w); isModalOpen := false;
             formState := resetForm env u; isSubmitting := false |};
        remote :=
          <[auto_id env :=
              committed env (<["createdAt" := serverTimestamp]>
                               (newPost env (formState st) u url))]> (remote w) |},
     [PreventDefault; SetIsSubmitting true]
     ++ match NewPostForm.imageFile (formState st) with
        | Some file => [Fetch file]
        | None => []
        end
     ++ [AddDoc "posts"
           (<["createdAt" := serverTimestamp]> (newPost env (formState st) u url));
         SetIsModalOpen false; SetFormState (resetForm env u);
         SetIsSubmitting false]).
Proof.
  intros Hu Hurl Hf Hid. unfold uploadedUrl in Hurl.
  unfold handleCreatePost. rewrite Hu.
  destruct (NewPostForm.imageFile (formState st)) as [file|].
  - destruct (fetch_answer env file) as [e|e|[url'|m]] eqn:Hans;
      try discriminate Hurl.
    injection Hurl as ->. run_M. rewrite Hans, Hf. cbn. rewrite Hid. reflexivity.
  - injection Hurl as <-. run_M. rewrite Hf. cbn. rewrite Hid. reflexivity.
Qed.

Lemma handleCreatePost_through env st w u url :
  user st = Some u ->
  uploadedUrl env (formState st) = Some url ->
  write_fault env = None ->
  remote w !! auto_id env = None ->
  world_after (handleCreatePost env st) w
  = {| client :=
         {| user := user (client w); posts := posts (client w);
            loading := loading (client w); isModalOpen := false;
            formState := resetForm env u; isSubmitting := false |};
       remote :=
         <[auto_id env :=
             committed env (<["createdAt" := serverTimestamp]>
                              (newPost env (formState st) u url))]> (remote w) |}
  ∧ Array_filter isFailureReport (effects_of (handleCreatePost env st) w) = []
  ∧ Array_filter isWrite (effects_of (handleCreatePost env st) w)
    = [AddDoc "posts"
         (<["createdAt" := serverTimestamp]> (newPost env (formState st) u url))].
Proof.
  intros Hu Hurl Hf Hid. unfold world_after, effects_of.
  rewrite (handleCreatePost_through_run env st w u url Hu Hurl Hf Hid).
  by destruct (NewPostForm.imageFile (formState st)).
Qed.

(** A create that does not: only [isSubmitting] is touched, and the user
    is alerted once. *)
Lemma handleCreatePost_stopped env st w u :
  user st = Some u ->
  createGoesThrough env st w = false ->
  world_after (handleCreatePost env st) w
  = {| client :=
         {| user := user (client w); posts := posts (client w);
            loading := loading (client w); isModalOpen := isModalOpen (client w);
            formState := formState (client w); isSubmitting := false |};
       remote := remote w |}
  ∧ Array_filter isAlert (effects_of (handleCreatePost env st) w)
    = [Alert "Failed to create post. Please try again."].
Proof.
  intros Hu Hno. unfold createGoesThrough, uploadedUrl in Hno.
  unfold world_after, effects_of, handleCreatePost. rewrite Hu.
  destruct (NewPostForm.imageFile (formState st)) as [file|].
  - destruct (fetch_answer env file) as [e|e|[url'|m]] eqn:Hans.
    1-2,4: run_M; rewrite Hans; cbn; done.
    destruct (write_fault env) eqn:Hf; [run_M; rewrite Hans, Hf; cbn; done|].
    destruct (remote w !! auto_id env) eqn:Hid;
      [run_M; rewrite Hans, Hf; cbn; rewrite Hid; cbn; done|].
    rewrite !bool_decide_eq_true_2 in Hno by eauto. discriminate Hno.
  - destruct (write_fault env) eqn:Hf; [run_M; rewrite Hf; cbn; done|].
    destruct (remote w !! auto_id env) eqn:Hid;
      [run_M; rewrite Hf; cbn; rewrite Hid; cbn; done|].
    rewrite !bool_decide_eq_true_2 in Hno by eauto. discriminate Hno.
Qed.

Lemma createGoesThrough_true env st w :
  createGoesThrough env st w = true ->
  (∃ url, uploadedUrl env (formState st) = Some url)
  ∧ write_fault env = None ∧ remote w !! auto_id env = None.
Proof.
  unfold createGoesThrough. rewrite !andb_true_iff, !bool_decide_eq_true.
  intros [[[url Hurl] Hf] Hid]. eauto.
Qed.

(** What a create does to the component state, whatever happens. *)
Lemma handleCreatePost_client env st w :
  user (client (world_after (handleCreatePost env st) w)) = user (client w)
  ∧ posts (client (world_after (handleCreatePost env st) w)) = posts (client w)
  ∧ loading (client (world_after (handleCreatePost env st) w)) = loading (client w).
Proof.
  destruct (user st) as [u|] eqn:Hu.
  - destruct (createGoesThrough env st w) eqn:Hgo.
    + apply createGoesThrough_true in Hgo as ([url Hurl] & Hf & Hid).
      destruct (handleCreatePost_through env st w u url Hu Hurl Hf Hid) as [-> _].
      done.
    + destruct (handleCreatePost_stopped env st w u Hu Hgo) as [-> _]. done.
  - run_M. rewrite Hu. done.
Qed.

(** ** The create handler *)

(** X4.  With a session, a create either goes through (the upload, if
    any, succeeded, the store accepted the write, the id was free): one
    document is stored under the new id, the dialog is closed, the form is
    reset with the user's e-mail, and no failure is reported; or it does
    not: the store, the dialog and the form are as before, and the user is
    alerted exactly once.  Either way the submit button is released
    ([isSubmitting] is false). *)
Theorem create_outcome env st w u :
  user st = Some u ->
  isSubmitting (client (world_after (handleCreatePost env st) w)) = false
  ∧ (createGoesThrough env st w = true ->
       ∃ url, uploadedUrl env (formState st) = Some url
       ∧ remote (world_after (handleCreatePost env st) w)
         = <[auto_id env :=
               committed env (<["createdAt" := serverTimestamp]>
                                (newPost env (formState st) u url))]> (remote w)
       ∧ isModalOpen (client (world_after (handleCreatePost env st) w)) = false
       ∧ formState (client (world_after (handleCreatePost env st) w)) = resetForm env u
       ∧ Array_filter isFailureReport (effects_of (handleCreatePost env st) w) = [])
  ∧ (createGoesThrough env st w = false ->
       remote (world_after (handleCreatePost env st) w) = remote w
       ∧ isModalOpen (client (world_after (handleCreatePost env st) w))
         = isModalOpen (client w)
       ∧ formState (client (world_after (handleCreatePost env st) w))
         = formState (client w)
       ∧ Array_filter isAlert (effects_of (handleCreatePost env st) w)
         = [Alert "Failed to create post. Please try again."]).
Proof.
  intros Hu. split_and!.
  - destruct (createGoesThrough env st w) eqn:Hgo.
    + apply createGoesThrough_true in Hgo as ([url Hurl] & Hf & Hid).
      destruct (handleCreatePost_through env st w u url Hu Hurl Hf Hid) as [-> _].
      done.
    + destruct (handleCreatePost_stopped env st w u Hu Hgo) as [-> _]. done.
  - intros Hgo.
    apply createGoesThrough_true in Hgo as ([url Hurl] & Hf & Hid).
    destruct (handleCreatePost_through env st w u url Hu Hurl Hf Hid)
      as (-> & Hrep & _).
    exists url. done.
  - intros Hgo.
    destruct (handleCreatePost_stopped env st w u Hu Hgo) as [-> Halert]. done.
Qed.

Lemma create_outcome_witness :
  createGoesThrough env_ok photo_session world_photo = true
  ∧ formState (client (world_after (handleCreatePost env_ok photo_session) world_photo))
    = resetForm env_ok alice
  ∧ createGoesThrough env_refusing photo_session world_photo = false
  ∧ remote (world_after (handleCreatePost env_refusing photo_session) world_photo)
    = remote world_photo.
Proof.
  destruct (create_outcome env_ok photo_session world_photo alice eq_refl)
    as (_ & Hgo & _).
  destruct (create_outcome env_refusing photo_session world_photo alice eq_refl)
    as (_ & _ & Hno).
  assert (H1 : createGoesThrough env_ok photo_session world_photo = true)
    by (vm_compute; reflexivity).
  assert (H2 : createGoesThrough env_refusing photo_session world_photo = false)
    by (vm_compute; reflexivity).
  destruct (Hgo H1) as (url & _ & _ & _ & Hform & _).
  destruct (Hno H2) as (Hrem & _).
  split_and!; assumption.
Defined.

(** X5.  The document a create stores holds the form's fields as they
    were entered, the uploaded image's URL (the empty string without an
    image), the creator's uid, status OPEN, and no field named [id]. *)
Theorem create_stores_form env st w u d :
  user st = Some u ->
  remote w !! auto_id env = None ->
  remote (world_after (handleCreatePost env st) w) !! auto_id env = Some d ->
  d !! "type" = Some (PostType_value (NewPostForm.type (formState st)))
  ∧ d !! "title" = Some (VString (NewPostForm.title (formState st)))
  ∧ d !! "description" = Some (VString (NewPostForm.description (formState st)))
  ∧ d !! "location" = Some (VString (NewPostForm.location (formState st)))
  ∧ d !! "date" = Some (VString (NewPostForm.date (formState st)))
  ∧ d !! "category" = Some (VString (NewPostForm.category (formState st)))
  ∧ d !! "contactEmail" = Some (VString (NewPostForm.contactEmail (formState st)))
  ∧ d !! "contactPhone" = Some (VString (NewPostForm.contactPhone (formState st)))
  ∧ d !! "createdBy" = Some (VString (User.uid u))
  ∧ d !! "status" = Some (VString (js "OPEN"))
  ∧ (∃ url, uploadedUrl env (formState st) = Some url
            ∧ d !! "imageUrl" = Some (VString url))
  ∧ d !! "id" = None.
Proof.
  intros Hu Hid Hd.
  destruct (createGoesThrough env st w) eqn:Hgo.
  - apply createGoesThrough_true in Hgo as ([url Hurl] & Hf & _).
    destruct (handleCreatePost_through env st w u url Hu Hurl Hf Hid) as [Hw _].
    rewrite Hw in Hd. simpl in Hd. rewrite lookup_insert_eq in Hd.
    injection Hd as <-. rewrite !committed_lookup.
    split_and!; try reflexivity. exists url. split; [done | reflexivity].
  - destruct (handleCreatePost_stopped env st w u Hu Hgo) as [Hw _].
    rewrite Hw in Hd. simpl in Hd. congruence.
Qed.

Lemma create_stores_form_witness :
  ∃ d, remote (world_after (handleCreatePost env_ok photo_session) world_photo)
         !! js "p2" = Some d
       ∧ d !! "imageUrl" = Some (VString (js "https://i.ibb.co/wallet.png"))
       ∧ d !! "title" = Some (VString (js "Blue Wallet")).
Proof.
  destruct (handleCreatePost_through env_ok photo_session world_photo alice
              (js "https://i.ibb.co/wallet.png") eq_refl eq_refl eq_refl eq_refl)
    as [Hw _].
  eexists. split; [rewrite Hw; apply lookup_insert_eq|].
  match goal with |- ?d !! _ = _ ∧ _ =>
    destruct (create_stores_form env_ok photo_session world_photo alice d
                eq_refl eq_refl)
      as (_ & Htitle & _ & _ & _ & _ & _ & _ & _ & _ & (url & Hurl & Himg) & _)
  end.
  { rewrite Hw. apply lookup_insert_eq. }
  split; [|exact Htitle].
  rewrite Himg. injection Hurl as <-. reflexivity.
Defined.

(** X6.  A create never changes or removes a post that is stored, never
    touches the mirror, the loading flag or the session, and adds at most
    the one document under the id drawn for it. *)
Theorem create_keeps_stored env st w :
  (∀ id d, remote w !! id = Some d ->
     remote (world_after (handleCreatePost env st) w) !! id = Some d)
  ∧ (∀ id, id ≠ auto_id env ->
       remote (world_after (handleCreatePost env st) w) !! id = remote w !! id)
  ∧ posts (client (world_after (handleCreatePost env st) w)) = posts (client w)
  ∧ loading (client (world_after (handleCreatePost env st) w)) = loading (client w)
  ∧ user (client (world_after (handleCreatePost env st) w)) = user (client w).
Proof.
  destruct (handleCreatePost_client env st w) as (Hu & Hp & Hl).
  split_and!; try done.
  - intros id d Hd.
    destruct (handleCreatePost_remote env st w) as [-> | (u & url & _ & Hfree & ->)];
      [done|].
    rewrite lookup_insert_ne; [done | congruence].
  - intros id Hid.
    destruct (handleCreatePost_remote env st w) as [-> | (u & url & _ & Hfree & ->)];
      [done|].
    by rewrite lookup_insert_ne.
Qed.

Lemma create_keeps_stored_witness :
  remote world_photo !! js "p1" = Some (stored_post "OPEN")
  ∧ remote (world_after (handleCreatePost env_ok photo_session) world_photo) !! js "p1"
    = Some (stored_post "OPEN").
Proof.
  split; [reflexivity|].
  destruct (create_keeps_stored env_ok photo_session world_photo) as (Hkeep & _).
  apply Hkeep. reflexivity.
Defined.

(** X7.  When the store refuses the write after a successful upload, the
    image has been uploaded all the same and stays without a post: the
    upload is the only remote call besides the refused write, nothing is
    stored, and the failure is logged and alerted. *)
Theorem create_orphans_upload env st w u file url e :
  user st = Some u ->
  NewPostForm.imageFile (formState st) = Some file ->
  fetch_answer env file = Json (ImgbbSuccess url) ->
  write_fault env = Some e ->
  effects_of (handleCreatePost env st) w
  = [PreventDefault; SetIsSubmitting true; Fetch file;
     AddDoc "posts"
       (<["createdAt" := serverTimestamp]> (newPost env (formState st) u url));
     ConsoleError "Error creating post:" e;
     Alert "Failed to create post. Please try again.";
     SetIsSubmitting false]
  ∧ remote (world_after (handleCreatePost env st) w) = remote w.
Proof.
  intros Hu Hfile Hans Hf. run_M. rewrite Hu, Hfile. simpl.
  rewrite Hans. simpl. rewrite Hf. simpl. done.
Qed.

Lemma create_orphans_upload_witness :
  Array_filter isRemoteCall
    (effects_of (handleCreatePost env_refusing photo_session) world_photo)
  = [Fetch photo;
     AddDoc "posts"
       (<["createdAt" := serverTimestamp]>
          (newPost env_refusing (formState photo_session) alice
             (js "https://i.ibb.co/wallet.png")))]
  ∧ remote (world_after (handleCreatePost env_refusing photo_session) world_photo)
    = remote world_photo.
Proof.
  destruct (create_orphans_upload env_refusing photo_session world_photo alice photo
              (js "https://i.ibb.co/wallet.png") (FirestoreError "permission-denied")
              eq_refl eq_refl eq_refl eq_refl) as [Heff Hrem].
  split; [rewrite Heff; reflexivity | exact Hrem].
Defined.

(** ** Resolve and delete *)

Lemma resolved_fields_lookup env k :
  k ≠ "status" -> committed env resolved_fields !! k = None.
Proof.
  intros Hk. rewrite committed_lookup. unfold resolved_fields.
  by rewrite lookup_singleton_ne.
Qed.

(** X8.  A resolve changes nothing but the [status] field of the post it
    names: every other field of that post and every other post is as
    before, and no post appears or disappears. *)
Theorem resolve_touches_status_only env postId w :
  (∀ id, id ≠ postId ->
     remote (world_after (handleResolvePost env postId) w) !! id = remote w !! id)
  ∧ (∀ d d' k,
       remote w !! postId = Some d ->
       remote (world_after (handleResolvePost env postId) w) !! postId = Some d' ->
       k ≠ "status" -> d' !! k = d !! k)
  ∧ (∀ id, is_Some (remote (world_after (handleResolvePost env postId) w) !! id)
           ↔ is_Some (remote w !! id))
  ∧ client (world_after (handleResolvePost env postId) w) = client w.
Proof.
  unfold world_after. rewrite handleResolvePost_run.
  destruct (confirm_answer env);
    [|split_and!; intros; simpl in *; first [done | congruence]].
  destruct (write_fault env);
    [split_and!; intros; simpl in *; first [done | congruence]|].
  destruct (remote w !! postId) as [old|] eqn:Hold;
    [|split_and!; intros; simpl in *; first [done | congruence]].
  simpl. split_and!.
  - intros id Hid. by rewrite lookup_insert_ne.
  - intros d d' k [= <-] Hd' Hk. rewrite lookup_insert_eq in Hd'.
    injection Hd' as <-. rewrite lookup_union_r; [done|].
    by apply resolved_fields_lookup.
  - intros id. rewrite lookup_insert. case_decide; [subst|done].
    rewrite Hold. split; eauto.
  - done.
Qed.

Lemma resolve_touches_status_only_witness :
  ∃ d', remote (world_after (handleResolvePost env_ok (js "p1")) world_signed_out)
          !! js "p1" = Some d'
        ∧ d' !! "title" = Some (VString (js "Red Keys")).
Proof.
  destruct (resolve_touches_status_only env_ok (js "p1") world_signed_out)
    as (_ & Hfields & _).
  assert (Hd' : remote (world_after (handleResolvePost env_ok (js "p1")) world_signed_out)
                  !! js "p1"
                = Some (committed env_ok resolved_fields ∪ stored_post "OPEN")).
  { unfold world_after. rewrite handleResolvePost_run. apply lookup_insert_eq. }
  eexists. split; [exact Hd'|].
  rewrite (Hfields (stored_post "OPEN") _ "title" eq_refl Hd'); [reflexivity|].
  discriminate.
Defined.

(** X9.  Resolve and delete never alert the user and never fail towards
    their caller: a refused write, or a resolve of a post that is not
    stored, leaves the store as it was and is logged to the console only. *)
Theorem resolve_delete_fail_silently env postId w :
  Array_filter isAlert (effects_of (handleResolvePost env postId) w) = []
  ∧ Array_filter isAlert (effects_of (handleDeletePost env postId) w) = []
  ∧ result_of (handleResolvePost env postId) w = inr tt
  ∧ result_of (handleDeletePost env postId) w = inr tt
  ∧ (Array_filter isFailureReport (effects_of (handleResolvePost env postId) w) ≠ [] ->
       world_after (handleResolvePost env postId) w = w)
  ∧ (Array_filter isFailureReport (effects_of (handleDeletePost env postId) w) ≠ [] ->
       world_after (handleDeletePost env postId) w = w)
  ∧ (confirm_answer env = true -> write_fault env = None ->
     remote w !! postId = None ->
       effects_of (handleResolvePost env postId) w
       = [Confirm "Are you sure you want to mark this item as resolved/found?";
          UpdateDoc "posts" postId resolved_fields;
          ConsoleError "Error resolving post:" (FirestoreError "not-found")]).
Proof.
  unfold effects_of, result_of, world_after.
  rewrite handleResolvePost_run, handleDeletePost_run.
  destruct (confirm_answer env); simpl; [|split_and!; done].
  destruct (write_fault env); simpl.
  - split_and!; done.
  - destruct (remote w !! postId); simpl; split_and!; done.
Qed.

Lemma resolve_delete_fail_silently_witness :
  effects_of (handleResolvePost env_ok (js "p9")) world_signed_out
  = [Confirm "Are you sure you want to mark this item as resolved/found?";
     UpdateDoc "posts" (js "p9") resolved_fields;
     ConsoleError "Error resolving post:" (FirestoreError "not-found")]
  ∧ world_after (handleDeletePost env_refusing (js "p1")) world_signed_out
    = world_signed_out.
Proof.
  destruct (resolve_delete_fail_silently env_ok (js "p9") world_signed_out)
    as (_ & _ & _ & _ & _ & _ & Hmissing).
  destruct (resolve_delete_fail_silently env_refusing (js "p1") world_signed_out)
    as (_ & _ & _ & _ & _ & Hrefused & _).
  split.
  - apply Hmissing; reflexivity.
  - apply Hrefused. vm_compute. discriminate.
Defined.

(** X10.  Doing a resolve, or a delete, twice is doing it once: with the
    same answers of the collaborators the second run leaves the store as
    the first one left it. *)
Theorem resolve_delete_idempotent env postId w :
  remote (world_after (handleResolvePost env postId)
            (world_after (handleResolvePost env postId) w))
  = remote (world_after (handleResolvePost env postId) w)
  ∧ remote (world_after (handleDeletePost env postId)
              (world_after (handleDeletePost env postId) w))
    = remote (world_after (handleDeletePost env postId) w).
Proof.
  unfold world_after. rewrite !handleResolvePost_run, !handleDeletePost_run.
  destruct (confirm_answer env); simpl; [|done].
  destruct (write_fault env); simpl; [done|]. split.
  - destruct (remote w !! postId) as [old|] eqn:Hold; simpl.
    + rewrite lookup_insert_eq. simpl. rewrite insert_insert_eq.
      by rewrite map_union_assoc, map_union_idemp.
    + by rewrite Hold.
  - apply delete_delete_eq.
Qed.

(** X11.  A confirmed delete the store accepts removes the post it names
    and no other; deleting a post that is not stored succeeds without any
    failure report and changes nothing. *)
Theorem delete_removes_exactly env postId w :
  confirm_answer env = true -> write_fault env = None ->
  remote (world_after (handleDeletePost env postId) w) !! postId = None
  ∧ (∀ id, id ≠ postId ->
       remote (world_after (handleDeletePost env postId) w) !! id = remote w !! id)
  ∧ Array_filter isFailureReport (effects_of (handleDeletePost env postId) w) = []
  ∧ (remote w !! postId = None ->
       world_after (handleDeletePost env postId) w = w).
Proof.
  intros Hc Hf. unfold world_after, effects_of. rewrite handleDeletePost_run.
  rewrite Hc, Hf. simpl. split_and!.
  - apply lookup_delete_eq.
  - intros id Hid. by apply lookup_delete_ne.
  - done.
  - intros Hnone. rewrite delete_id by done. by destruct w.
Qed.

Lemma delete_removes_exactly_witness :
  remote (world_after (handleDeletePost env_ok (js "p1")) world_signed_out) !! js "p1"
    = None
  ∧ world_after (handleDeletePost env_ok (js "p9")) world_signed_out = world_signed_out.
Proof.
  destruct (delete_removes_exactly env_ok (js "p1") world_signed_out eq_refl eq_refl)
    as (Hgone & _).
  destruct (delete_removes_exactly env_ok (js "p9") world_signed_out eq_refl eq_refl)
    as (_ & _ & _ & Hnoop).
  split; [exact Hgone | apply Hnoop; reflexivity].
Defined.

(** X12.  Only a create adds a post: along any sequence of resolves and
    deletes, a post that is not stored (never created, or deleted) stays
    out of the store; in particular a resolve after a delete does not
    bring the post back. *)
Theorem resolve_delete_never_add ops w id :
  Forall (fun eo => notCreate eo.2) ops ->
  remote w !! id = None ->
  remote (exec ops w) !! id = None.
Proof.
  revert w. induction ops as [|[env op] ops IH]; intros w Hops Hid; simpl; [done|].
  apply Forall_cons in Hops as [Hop Hops]. apply IH; [done|].
  destruct op as [st|postId|postId]; simpl in *; [done| |].
  - destruct (handleResolvePost_remote env postId w) as [-> | (old & Hold & ->)];
      [done|].
    rewrite lookup_insert_ne; [done | congruence].
  - destruct (handleDeletePost_remote env postId w) as [-> | ->]; [done|].
    rewrite lookup_delete. case_decide; done.
Qed.

Lemma resolve_delete_never_add_witness :
  remote (exec [(env_ok, Delete (js "p1")); (env_ok, Resolve (js "p1"))]
            world_signed_out) !! js "p1" = None.
Proof.
  pose proof (resolve_delete_never_add [(env_ok, Resolve (js "p1"))]
                (world_after (perform env_ok (Delete (js "p1"))) world_signed_out)
                (js "p1")) as H.
  apply H.
  - repeat constructor.
  - reflexivity.
Defined.

(** ** The card's buttons *)

(** X13.  Through a card, a resolve or delete reaches the store only for
    the signed-in creator of a post that is not RESOLVED: whenever a click
    makes a remote call, there is a user, the post is theirs and it is
    OPEN.  Signed out, on a post of someone else, or on a RESOLVED post,
    a click does nothing at all; for the owner of an OPEN post it runs the
    handler on the post's id. *)
Theorem card_click_gate env st post b w :
  (Array_filter isRemoteCall (effects_of (App_card_click env st post b) w) ≠ [] ->
     ∃ u, user st = Some u ∧ User.uid u = Post.createdBy post
          ∧ Post.status post = OPEN)
  ∧ (user st = None ∨ Post.status post = RESOLVED
     ∨ (∃ u, user st = Some u ∧ User.uid u ≠ Post.createdBy post) ->
       App_card_click env st post b w = (inr tt, w, []))
  ∧ (∀ u, user st = Some u -> User.uid u = Post.createdBy post ->
       Post.status post = OPEN ->
       App_card_click env st post b
       = match b with
         | MarkResolved => handleResolvePost env (Post.id post)
         | DeleteButton => handleDeletePost env (Post.id post)
         end).
Proof.
  unfold App_card_click, PostCard_click, isOwner, notResolved, effects_of.
  split_and!.
  - destruct (user st) as [u|]; simpl; [|done].
    case_bool_decide; simpl; [|done].
    destruct (Post.status post); simpl; [eauto | done].
  - intros [-> | [-> | (u & -> & Hne)]]; simpl.
    + done.
    + by rewrite andb_false_r.
    + by rewrite bool_decide_eq_false_2.
  - intros u -> Hown ->. rewrite bool_decide_eq_true_2 by done. simpl.
    by destruct b.
Qed.

Lemma card_click_gate_witness :
  App_card_click env_ok signed_out (card_post OPEN) MarkResolved world_signed_out
  = (inr tt, world_signed_out, [])
  ∧ App_card_click env_ok photo_session (card_post RESOLVED) DeleteButton world_photo
    = (inr tt, world_photo, [])
  ∧ App_card_click env_ok photo_session (card_post OPEN) DeleteButton
    = handleDeletePost env_ok (js "p1").
Proof.
  split_and!.
  - apply (card_click_gate env_ok signed_out (card_post OPEN) MarkResolved
             world_signed_out). left. reflexivity.
  - apply (card_click_gate env_ok photo_session (card_post RESOLVED) DeleteButton
             world_photo). right. left. reflexivity.
  - destruct (card_click_gate env_ok photo_session (card_post OPEN) DeleteButton
                world_photo) as (_ & _ & Hown).
    apply (Hown alice); reflexivity.
Defined.

(** ** The image upload *)

(** X14.  An upload makes exactly one request and touches neither the
    component state nor the store.  It returns the host's URL when the
    host reports success; otherwise it throws, after logging the error
    once: the rejection of the request or of its body as it is, or an
    [Error] with the host's message, 'Image upload failed' when the host
    gives none or an empty one. *)
Theorem uploadImageToImgBB_outcomes env file w :
  world_after (uploadImageToImgBB env file) w = w
  ∧ Array_filter isRemoteCall (effects_of (uploadImageToImgBB env file) w)
    = [Fetch file]
  ∧ (∀ url, fetch_answer env file = Json (ImgbbSuccess url) ->
       uploadImageToImgBB env file w = (inr url, w, [Fetch file]))
  ∧ (∀ e, fetch_answer env file = FetchRejected e
          ∨ fetch_answer env file = JsonRejected e ->
       uploadImageToImgBB env file w
       = (inl e, w, [Fetch file; ConsoleError "Error uploading image:" e]))
  ∧ (∀ m, fetch_answer env file = Json (ImgbbFailure m) ->
       uploadImageToImgBB env file w
       = (inl (Error (or_string m (js "Image upload failed"))), w,
          [Fetch file;
           ConsoleError "Error uploading image:"
             (Error (or_string m (js "Image upload failed")))])
       ∧ (m = None ∨ m = Some [] ->
          or_string m (js "Image upload failed") = js "Image upload failed")
       ∧ (∀ c s, m = Some (c :: s) ->
          or_string m (js "Image upload failed") = c :: s)).
Proof.
  split_and!.
  - run_M. destruct (fetch_answer env file) as [e|e|[url|m]]; done.
  - run_M. destruct (fetch_answer env file) as [e|e|[url|m]]; done.
  - intros url H. run_M. by rewrite H.
  - intros e [H|H]; run_M; by rewrite H.
  - intros m H. split_and!.
    + run_M. by rewrite H.
    + by intros [-> | ->].
    + by intros c s' ->.
Qed.

Lemma uploadImageToImgBB_outcomes_witness :
  uploadImageToImgBB env_host_down photo world_photo
  = (inl (TypeError (js "Failed to fetch")), world_photo,
     [Fetch photo; ConsoleError "Error uploading image:" (TypeError (js "Failed to fetch"))])
  ∧ uploadImageToImgBB env_ok photo world_photo
    = (inr (js "https://i.ibb.co/wallet.png"), world_photo, [Fetch photo]).
Proof.
  destruct (uploadImageToImgBB_outcomes env_host_down photo world_photo)
    as (_ & _ & _ & Hrej & _).
  destruct (uploadImageToImgBB_outcomes env_ok photo world_photo)
    as (_ & _ & Hok & _).
  split.
  - apply Hrej. left. reflexivity.
  - apply Hok. reflexivity.
Defined.

(** ** The snapshot listener, again *)

Lemma perform_noIdField env op w :
  noIdField (remote w) -> noIdField (remote (world_after (perform env op) w)).
Proof.
  intros Hw id d Hd. destruct op as [st|postId|postId]; simpl in Hd.
  - destruct (handleCreatePost_remote env st w) as [Heq | (u & url & _ & _ & Heq)];
      rewrite Heq in Hd; [by eapply Hw|].
    rewrite lookup_insert in Hd. case_decide; [|by eapply Hw].
    injection Hd as <-. rewrite committed_lookup. reflexivity.
  - destruct (handleResolvePost_remote env postId w) as [Heq | (old & Hold & Heq)];
      rewrite Heq in Hd; [by eapply Hw|].
    rewrite lookup_insert in Hd. case_decide; [|by eapply Hw].
    injection Hd as <-. subst.
    rewrite lookup_union_r by (by apply resolved_fields_lookup).
    by eapply Hw.
  - destruct (handleDeletePost_remote env postId w) as [Heq | Heq];
      rewrite Heq in Hd; [by eapply Hw|].
    apply lookup_delete_Some in Hd as [_ Hd]. by eapply Hw.
Qed.

Lemma exec_noIdField ops w :
  noIdField (remote w) -> noIdField (remote (exec ops w)).
Proof.
  revert w. induction ops as [|[env op] ops IH]; intros w Hw; simpl; [done|].
  by apply IH, perform_noIdField.
Qed.

(** X15.  The listener hands every field of a document on unchanged, but
    for [createdAt] and [id].  The post's [id] is the document's id,
    unless the document has a field named [id] itself, which then wins.
    The posts this program's mutations store have no such field, so their
    [id] is always the document's id. *)
Theorem fetchedPost_fields :
  (∀ doc k, k ≠ "createdAt" -> k ≠ "id" ->
     fetchedPost doc !! k = doc_data doc !! k)
  ∧ (∀ doc, doc_data doc !! "id" = None ->
       fetchedPost doc !! "id" = Some (VString (doc_id doc)))
  ∧ (∀ doc v, doc_data doc !! "id" = Some v -> fetchedPost doc !! "id" = Some v)
  ∧ (∀ ops w id d, noIdField (remote w) ->
       remote (exec ops w) !! id = Some d ->
       fetchedPost {| doc_id := id; doc_data := d |} !! "id" = Some (VString id)).
Proof.
  assert (Hfresh : ∀ doc, doc_data doc !! "id" = None ->
            fetchedPost doc !! "id" = Some (VString (doc_id doc))).
  { intros doc H. unfold fetchedPost. rewrite lookup_insert_ne by done.
    rewrite lookup_union_r by done. apply lookup_singleton_eq. }
  split_and!.
  - intros doc k Hc Hi. unfold fetchedPost. rewrite lookup_insert_ne by done.
    destruct (doc_data doc !! k) as [v|] eqn:Hk.
    + by apply lookup_union_Some_l.
    + rewrite lookup_union_r by done. by apply lookup_singleton_ne.
  - exact Hfresh.
  - intros doc v H. unfold fetchedPost. rewrite lookup_insert_ne by done.
    by apply lookup_union_Some_l.
  - intros ops w id d Hw Hd. apply Hfresh. simpl.
    by eapply exec_noIdField.
Qed.

Lemma fetchedPost_fields_witness :
  fetchedPost {| doc_id := js "p1"; doc_data := stored_post "OPEN" |} !! "id"
    = Some (VString (js "p1"))
  ∧ fetchedPost {| doc_id := js "p1";
                   doc_data := {["id" := VString (js "other")]} |} !! "id"
    = Some (VString (js "other")).
Proof.
  destruct fetchedPost_fields as (_ & Hfresh & Hown & _).
  split.
  - apply Hfresh. reflexivity.
  - apply Hown. reflexivity.
Defined.

(** X16.  What [createdAt] surfaces as, for every stored value: a stored
    number surfaces as a number (itself, or 0 for 0 and NaN); a truthy
    value that is neither a timestamp nor a number (a non-empty string,
    [true], an object) surfaces unchanged, so not as a number; and these
    are the only values that do not surface as a number. *)
Theorem fetchedPost_createdAt_cases doc :
  (∀ n, doc_data doc !! "createdAt" = Some (VNumber n) ->
     fetchedPost doc !! "createdAt"
     = Some (VNumber (if truthy_number n then n else Num 0)))
  ∧ (∀ v, doc_data doc !! "createdAt" = Some v -> passesThrough v = true ->
       fetchedPost doc !! "createdAt" = Some v
       ∧ ∀ n, v ≠ VNumber n)
  ∧ ((∃ n, fetchedPost doc !! "createdAt" = Some (VNumber n))
     ↔ ¬ ∃ v, doc_data doc !! "createdAt" = Some v ∧ passesThrough v = true).
Proof.
  rewrite fetchedPost_createdAt. unfold normalizedCreatedAt. split_and!.
  - intros n ->. simpl. by destruct (truthy_number n).
  - intros v -> Hv. split; [|by destruct v].
    destruct v as [| [|] | n | s | ts | |]; simpl in *; try done.
    by rewrite Hv.
  - destruct (doc_data doc !! "createdAt") as [v|]; simpl.
    + split.
      * intros [n Hn] (v' & [= <-] & Hv).
        destruct v as [| [|] | m | s | ts | |]; simpl in *; try done.
        rewrite Hv in Hn. done.
      * intros Hno.
        destruct v as [| [|] | m | s | ts | |]; simpl in *; eauto.
        -- exfalso. apply Hno. eauto.
        -- destruct (truthy_number m); eauto.
        -- destruct (truthy_string s) eqn:Hs; [|eauto].
           exfalso. apply Hno. eauto.
        -- exfalso. apply Hno. eauto.
        -- exfalso. apply Hno. eauto.
    + split; [intros _ (v & [=] & _) | eauto].
Qed.

Lemma fetchedPost_createdAt_cases_witness :
  fetchedPost {| doc_id := js "p1";
                 doc_data := {["createdAt" := VString (js "yesterday")]} |}
    !! "createdAt" = Some (VString (js "yesterday"))
  ∧ fetchedPost {| doc_id := js "p1";
                   doc_data := {["createdAt" := VNumber NaN]} |}
      !! "createdAt" = Some (VNumber (Num 0)).
Proof.
  destruct (fetchedPost_createdAt_cases
              {| doc_id := js "p1";
                 doc_data := {["createdAt" := VString (js "yesterday")]} |})
    as (_ & Hpass & _).
  destruct (fetchedPost_createdAt_cases
              {| doc_id := js "p1"; doc_data := {["createdAt" := VNumber NaN]} |})
    as (Hnum & _).
  split.
  - apply (Hpass (VString (js "yesterday"))); reflexivity.
  - apply (Hnum NaN). reflexivity.
Defined.

(** ** The component over a sequence of events *)

Lemma card_click_client env st post b w :
  client (world_after (App_card_click env st post b) w) = client w.
Proof.
  unfold App_card_click, PostCard_click, world_after.
  destruct (isOwner (user st) post && notResolved post); [|done].
  destruct b; [rewrite handleResolvePost_run | rewrite handleDeletePost_run];
    destruct (confirm_answer env); simpl; try done;
    destruct (write_fault env); simpl; try done.
  by destruct (remote w !! Post.id post).
Qed.

Lemma submitCreateForm_client env st w :
  user (client (world_after (submitCreateForm env st) w)) = user (client w)
  ∧ posts (client (world_after (submitCreateForm env st) w)) = posts (client w)
  ∧ loading (client (world_after (submitCreateForm env st) w)) = loading (client w).
Proof.
  unfold submitCreateForm.
  destruct (checkValidity (createForm (formState st))); [|done].
  apply handleCreatePost_client.
Qed.

Lemma ui_step_mirror ev w :
  ¬ isSnapshot ev ->
  posts (client (ui_step ev w)) = posts (client w)
  ∧ loading (client (ui_step ev w)) = loading (client w).
Proof.
  intros Hev. destruct ev as [cu|docs|c|files|env|env post b]; simpl in *; try done.
  - destruct (submitCreateForm_client env (client w) w) as (_ & Hp & Hl). done.
  - by rewrite card_click_client.
Qed.

Lemma ui_run_app evs ev w : ui_run (evs ++ [ev]) w = ui_step ev (ui_run evs w).
Proof. unfold ui_run. by rewrite foldl_app. Qed.

(** X17.  The mirror is owned by the listener: whatever else happens
    (sign-in or sign-out, edits of the form, creates, resolves, deletes),
    the mirror is the normalized content of the latest snapshot, and once
    a snapshot has arrived the loading flag is never raised again. *)
Theorem mirror_is_latest_snapshot evs1 docs evs2 w :
  Forall (fun ev => ¬ isSnapshot ev) evs2 ->
  posts (client (ui_run (evs1 ++ Snapshot docs :: evs2) w)) = fetchedPosts docs
  ∧ loading (client (ui_run (evs1 ++ Snapshot docs :: evs2) w)) = false.
Proof.
  induction evs2 as [|ev evs2 IH] using rev_ind; intros Hevs.
  - rewrite ui_run_app. done.
  - rewrite Forall_app, Forall_singleton in Hevs. destruct Hevs as [Hevs Hev].
    replace (evs1 ++ Snapshot docs :: evs2 ++ [ev])
      with ((evs1 ++ Snapshot docs :: evs2) ++ [ev])
      by (by rewrite <- app_assoc).
    rewrite ui_run_app.
    destruct (ui_step_mirror ev (ui_run (evs1 ++ Snapshot docs :: evs2) w) Hev)
      as [-> ->].
    by apply IH.
Qed.

Lemma mirror_is_latest_snapshot_witness :
  posts (client (ui_run
    [Snapshot [];
     Snapshot [{| doc_id := js "p1"; doc_data := stored_post "OPEN" |}];
     AuthStateChanged (Some alice);
     CardClick env_ok (card_post OPEN) DeleteButton]
    world_signed_out))
  = fetchedPosts [{| doc_id := js "p1"; doc_data := stored_post "OPEN" |}].
Proof.
  apply (mirror_is_latest_snapshot [Snapshot []]
           [{| doc_id := js "p1"; doc_data := stored_post "OPEN" |}]
           [AuthStateChanged (Some alice);
            CardClick env_ok (card_post OPEN) DeleteButton]
           world_signed_out).
  repeat constructor; simpl; tauto.
Defined.

(** ** The contact e-mail *)

Lemma onChange_contactEmail c f :
  NewPostForm.contactEmail (onChange c f) = NewPostForm.contactEmail f.
Proof. reflexivity. Qed.

Lemma handleFileChange_contactEmail files f :
  NewPostForm.contactEmail (handleFileChange files f) = NewPostForm.contactEmail f.
Proof. by destruct files as [[|file files]|]. Qed.

Lemma submitCreateForm_emailInSync env w :
  emailInSync (client w) ->
  emailInSync (client (world_after (submitCreateForm env (client w)) w)).
Proof.
  intros Hsync. unfold submitCreateForm.
  destruct (checkValidity (createForm (formState (client w)))); [|done].
  destruct (user (client w)) as [u|] eqn:Hu.
  - destruct (createGoesThrough env (client w) w) eqn:Hgo.
    + apply createGoesThrough_true in Hgo as ([url Hurl] & Hf & Hid).
      destruct (handleCreatePost_through env (client w) w u url Hu Hurl Hf Hid)
        as [-> _].
      intros u' Hu'. simpl in *. by replace u' with u by congruence.
    + destruct (handleCreatePost_stopped env (client w) w u Hu Hgo) as [-> _].
      intros u' Hu'. simpl in *. by apply Hsync.
  - unfold world_after. run_M. by rewrite Hu.
Qed.

(** X18.  The contact e-mail of a post is not the user's to choose.  Once
    the form's e-mail agrees with the session (it does whenever nobody is
    signed in, and after every sign-in), it keeps agreeing through every
    sign-in, sign-out, snapshot, edit of the form, file choice, create and
    card click; and every document a create then writes carries the
    signed-in user's e-mail, or the empty string if they have none. *)
Theorem contactEmail_is_session_email :
  (∀ st, user st = None -> emailInSync st)
  ∧ (∀ u st, emailInSync (onAuthStateChanged_state (Some u) st))
  ∧ (∀ evs w, emailInSync (client w) -> emailInSync (client (ui_run evs w)))
  ∧ (∀ env st w c data, emailInSync st ->
       AddDoc c data ∈ effects_of (submitCreateForm env st) w ->
       ∃ u, user st = Some u
            ∧ data !! "contactEmail" = Some (VString (or_string (User.email u) []))).
Proof.
  split_and!.
  - intros st Hu u. congruence.
  - intros u st u' [= <-]. reflexivity.
  - intros evs. induction evs as [|ev evs IH] using rev_ind; intros w Hw; [done|].
    rewrite ui_run_app. specialize (IH w Hw).
    set (w1 := ui_run evs w) in *. clearbody w1.
    destruct ev as [[u|]|docs|c|files|env|env post b]; simpl.
    + intros u' [= <-]. reflexivity.
    + intros u' [=].
    + exact IH.
    + intros u' Hu'. simpl in *. by apply IH.
    + intros u' Hu'. simpl in *. rewrite handleFileChange_contactEmail. by apply IH.
    + by apply submitCreateForm_emailInSync.
    + by rewrite card_click_client.
  - intros env st w c data Hsync H. unfold submitCreateForm in H.
    destruct (checkValidity (createForm (formState st)));
      [|unfold effects_of in H; simpl in H; by apply elem_of_nil in H].
    apply handleCreatePost_AddDoc in H as (u & url & Hu & _ & ->).
    exists u. split; [done|]. rewrite written_field by done.
    rewrite <- (Hsync u Hu). reflexivity.
Qed.

Lemma contactEmail_is_session_email_witness :
  emailInSync
    (client (ui_run [AuthStateChanged (Some visitor); Change (ChangeTitle (js "Keys"));
                     AuthStateChanged (Some alice); SubmitCreate env_ok]
               world_signed_out)).
Proof.
  destruct contactEmail_is_session_email as (Hout & _ & Hrun & _).
  apply Hrun. apply Hout. reflexivity.
Defined.

(** ** The profile written on sign-in *)

(** X19.  The session is set whatever becomes of the profile write: a
    refused write is only logged and leaves the ["users"] collection as it
    was.  An accepted write stores uid, name, e-mail and photo as the
    provider gave them (null when absent), stamps [lastLogin] with the
    server's time, keeps every other field of an existing profile, and
    touches no other profile.  Signing out writes nothing and leaves the
    form as it was. *)
Theorem signin_profile env currentUser st users :
  user (onAuthStateChanged_callback env currentUser st users).1.1 = currentUser
  ∧ (currentUser = None ->
       onAuthStateChanged_callback env currentUser st users
       = (onAuthStateChanged_state None st, users, None)
       ∧ formState (onAuthStateChanged_state None st) = formState st)
  ∧ (∀ u e, currentUser = Some u -> write_fault env = Some e ->
       onAuthStateChanged_callback env currentUser st users
       = (onAuthStateChanged_state (Some u) st, users, Some e))
  ∧ (∀ u, currentUser = Some u -> write_fault env = None ->
       (onAuthStateChanged_callback env currentUser st users).2 = None
       ∧ ∃ p, (onAuthStateChanged_callback env currentUser st users).1.2
                !! User.uid u = Some p
          ∧ p !! "uid" = Some (VString (User.uid u))
          ∧ p !! "displayName" = Some (nullable (User.displayName u))
          ∧ p !! "email" = Some (nullable (User.email u))
          ∧ p !! "photoURL" = Some (nullable (User.photoURL u))
          ∧ p !! "lastLogin" = Some (VTimestamp (server_time env))
          ∧ (∀ k, userProfile u !! k = None ->
               p !! k = default ∅ (users !! User.uid u) !! k)
          ∧ (∀ id, id ≠ User.uid u ->
               (onAuthStateChanged_callback env currentUser st users).1.2 !! id
               = users !! id)).
Proof.
  unfold onAuthStateChanged_callback, setDoc_merge. split_and!.
  - destruct currentUser as [u|]; [|done]. by destruct (write_fault env).
  - by intros ->.
  - by intros u e -> ->.
  - intros u -> ->. simpl. split; [done|].
    eexists. split; [apply lookup_insert_eq|].
    assert (Hin : ∀ k v, userProfile u !! k = Some v ->
              (committed env (userProfile u) ∪ default ∅ (users !! User.uid u)) !! k
              = Some (match v with
                      | VServerTimestamp => VTimestamp (server_time env)
                      | _ => v
                      end)).
    { intros k v Hk. apply lookup_union_Some_l. rewrite committed_lookup, Hk. done. }
    split_and!.
    + by rewrite (Hin "uid" (VString (User.uid u))).
    + rewrite (Hin "displayName" (nullable (User.displayName u))) by reflexivity.
      by destruct (User.displayName u).
    + rewrite (Hin "email" (nullable (User.email u))) by reflexivity.
      by destruct (User.email u).
    + rewrite (Hin "photoURL" (nullable (User.photoURL u))) by reflexivity.
      by destruct (User.photoURL u).
    + by rewrite (Hin "lastLogin" VServerTimestamp).
    + intros k Hk. apply lookup_union_r. by rewrite committed_lookup, Hk.
    + intros id Hid. by rewrite lookup_insert_ne.
Qed.

Lemma signin_profile_witness :
  (∃ p, (onAuthStateChanged_callback env_ok (Some alice) signed_out
           {[ js "u1" := profile_with_role ]}).1.2 !! js "u1" = Some p
        ∧ p !! "role" = Some (VString (js "staff"))
        ∧ p !! "displayName" = Some (VString (js "Alice")))
  ∧ onAuthStateChanged_callback env_refusing (Some alice) signed_out ∅
    = (onAuthStateChanged_state (Some alice) signed_out, ∅,
       Some (FirestoreError "permission-denied")).
Proof.
  destruct (signin_profile env_ok (Some alice) signed_out
              {[ js "u1" := profile_with_role ]}) as (_ & _ & _ & Hok).
  destruct (signin_profile env_refusing (Some alice) signed_out ∅)
    as (_ & _ & Hrefused & _).
  split.
  - destruct (Hok alice eq_refl eq_refl)
      as (_ & p & Hp & _ & Hname & _ & _ & _ & Hkeep & _).
    exists p. split; [exact Hp|]. split; [|exact Hname].
    rewrite (Hkeep "role") by reflexivity. reflexivity.
  - apply (Hrefused alice); reflexivity.
Defined.

(** ** The form's check before submission *)

Lemma truthy_string_true s : truthy_string s = true ↔ s ≠ [].
Proof. destruct s; simpl; split; done. Qed.

(** X20.  The form is submitted exactly when item name, description,
    location and date are all non-empty.  Nothing else counts: not the
    e-mail (read-only, so exempt from the check), category, phone or
    image; and a field holding only blanks passes as filled in. *)
Theorem checkValidity_createForm f :
  checkValidity (createForm f) = true
  ↔ NewPostForm.title f ≠ [] ∧ NewPostForm.description f ≠ []
    ∧ NewPostForm.location f ≠ [] ∧ NewPostForm.date f ≠ [].
Proof.
  unfold checkValidity, createForm, valueMissing. cbn.
  rewrite !andb_true_r, !andb_true_iff, !negb_true_iff, !negb_false_iff.
  rewrite !truthy_string_true. tauto.
Qed.

(** X21.  A create that went through cannot be repeated by pressing
    "Submit Post" again: it leaves the form empty, and the empty form is
    not submitted, so the second press reaches neither the image host nor
    the store. *)
Theorem create_not_repeated env env' w u :
  user (client w) = Some u ->
  createGoesThrough env (client w) w = true ->
  submitCreateForm env' (client (world_after (handleCreatePost env (client w)) w))
    (world_after (handleCreatePost env (client w)) w)
  = (inr tt, world_after (handleCreatePost env (client w)) w, []).
Proof.
  intros Hu Hgo.
  apply createGoesThrough_true in Hgo as ([url Hurl] & Hf & Hid).
  destruct (handleCreatePost_through env (client w) w u url Hu Hurl Hf Hid)
    as [-> _].
  reflexivity.
Qed.

Lemma create_not_repeated_witness :
  submitCreateForm env_ok
    (client (world_after (handleCreatePost env_ok (client world_photo)) world_photo))
    (world_after (handleCreatePost env_ok (client world_photo)) world_photo)
  = (inr tt, world_after (handleCreatePost env_ok (client world_photo)) world_photo, []).
Proof.
  apply (create_not_repeated env_ok env_ok world_photo alice).
  - reflexivity.
  - vm_compute. reflexivity.
Defined.

Lemma checkValidity_createForm_witness :
  checkValidity
    (createForm
       {| NewPostForm.type := LOST; NewPostForm.title := js "  ";
          NewPostForm.description := js " "; NewPostForm.location := js " ";
          NewPostForm.date := js "2024-05-01"; NewPostForm.category := [];
          NewPostForm.contactEmail := []; NewPostForm.contactPhone := [];
          NewPostForm.imageFile := None |}) = true.
Proof.
  apply checkValidity_createForm. simpl. split_and!; discriminate.
Defined.
